(** * go-event-bus: a model of [eventbus.go] and its specification

    The development embeds the [EventBus] of [eventbus.go] as functions on
    an explicit world: the fields of the bus, the channels of the Go
    runtime (which identities exist, which are closed), the delivery
    goroutines started by [Publish] and not yet finished, and the trace of
    runtime effects.

    Every critical section of the source (the code between [Lock] and
    [Unlock], or [RLock] and [RUnlock]) is one atomic step of the model,
    which is what the [sync.RWMutex] guarantees; the mutex itself is
    therefore not a field of the model.  The methods that keep running
    after they release the lock, [Publish] (it starts its goroutines),
    [PublishSync] (its sends) and [Close] (its [wg.Wait] and its second
    critical section), take a schedule that says which atomic steps of
    other goroutines run in between. *)

From stdpp Require Import gmap strings list fin_maps pretty sorting.

(** Identity of a channel ([chan any], [chan struct{}]).  [make] hands out
    identities in increasing order, so two channels are the same channel
    exactly when their identities are equal, as with [==] on Go channels. *)
Abbreviation chan := nat (only parsing).

(** ** Errors *)

(** [ErrBusClosed] is the package-level sentinel; every other error of the
    package is built by [fmt.Errorf] and carries only its message. *)
Inductive error :=
  | ErrBusClosed
  | Errorf (msg : string).

Definition Error (e : error) : string :=
  match e with
  | ErrBusClosed => "eventbus: bus closed"
  | Errorf msg => msg
  end.

(** ** The bus *)

(** [type EventBus struct]: [subscribers], [wg] (the counter of the
    [sync.WaitGroup]), [closed], [quitCh]. *)
Record EventBus := mkEventBus {
  subscribers : gmap string (list chan);
  wg : nat;
  closed : bool;
  quitCh : chan;
}.

Definition set_subscribers (m : gmap string (list chan)) (b : EventBus) : EventBus :=
  mkEventBus m (wg b) (closed b) (quitCh b).

Definition set_wg (n : nat) (b : EventBus) : EventBus :=
  mkEventBus (subscribers b) n (closed b) (quitCh b).

Definition set_closed (c : bool) (b : EventBus) : EventBus :=
  mkEventBus (subscribers b) (wg b) c (quitCh b).

(** [bus.subscribers[topic]]: the zero value (a nil slice) for a missing key. *)
Definition subs_of (b : EventBus) (topic : string) : list chan :=
  subscribers b !!! topic.

(** [slices.Clone]: a copy of the slice; lists are values, so the copy is
    the list itself. *)
Definition slices_Clone {A} (s : list A) : list A := s.

(** [slices.Delete(s, i, j)] removes [s[i:j]]; it panics when [j > len(s)]
    or [i > j]. *)
Definition slices_Delete {A} (s : list A) (i j : nat) : option (list A) :=
  if decide (i ≤ j ∧ j ≤ length s) then Some (take i s ++ drop j s) else None.

(** The order in which [for ... := range m] visits a Go map is not
    specified: it is some enumeration of the entries. *)
Class MapRange := {
  range : gmap string (list chan) → list (string * list chan);
  range_perm m : range m ≡ₚ map_to_list m;
}.

Section EventBus.
Context {any : Type}.
Context `{!MapRange}.

(** ** The runtime *)

(** Who performs a send: the [i]-th iteration of the loop of
    [PublishSync], or a delivery goroutine of [Publish]. *)
Inductive sender :=
  | BySync (i : nat)
  | ByTask.

(** Effects of the runtime, in the order they happen.  [EvSend s c d ok]:
    the send of [d] on [c] by [s] ended, received by the subscriber
    ([ok = true]) or with the panic of a send on a closed channel. *)
Inductive event :=
  | EvMake (c : chan)
  | EvClose (c : chan)
  | EvGo (c : chan) (data : any)
  | EvSend (s : sender) (c : chan) (data : any) (ok : bool)
  | EvAbandon (c : chan) (data : any)
  | EvLog (msg : string).

Record world := mkWorld {
  bus : EventBus;
  next_chan : chan;
  closed_chans : gset chan;
  goroutines : list (chan * any);
  trace : list event;
}.

(** What running a piece of code does: it returns, an uncaught panic
    ends the program, or it never gets to run to its end ([Block]: a
    blocked send, a [wg.Wait] that is not released, a step that is not
    enabled). *)
Inductive result (A : Type) :=
  | Ret (a : A) (w : world)
  | Panic (r : string)
  | Block.
Global Arguments Ret {A} a w.
Global Arguments Panic {A} r.
Global Arguments Block {A}.

Definition M (A : Type) : Type := world → result A.

Definition ret {A} (a : A) : M A := λ w, Ret a w.

Definition bind {A B} (m : M A) (k : A → M B) : M B :=
  λ w, match m w with
       | Ret a w' => k a w'
       | Panic r => Panic r
       | Block => Block
       end.

Definition panic {A} (r : string) : M A := λ _, Panic r.
Definition block {A} : M A := λ _, Block.

Global Instance M_ret : MRet M := @ret.
Global Instance M_bind : MBind M := λ A B k m, bind m k.

Definition get_bus : M EventBus := λ w, Ret (bus w) w.

Definition set_bus (b : EventBus) : M unit := λ w,
  Ret tt (mkWorld b (next_chan w) (closed_chans w) (goroutines w) (trace w)).

Definition emit (ev : event) : M unit := λ w,
  Ret tt (mkWorld (bus w) (next_chan w) (closed_chans w) (goroutines w)
            (trace w ++ [ev])).

(** [make(chan any)]. *)
Definition make_chan : M chan := λ w,
  Ret (next_chan w)
    (mkWorld (bus w) (S (next_chan w)) (closed_chans w) (goroutines w)
       (trace w ++ [EvMake (next_chan w)])).

(** [close(c)]: closing a closed channel panics. *)
Definition close_chan (c : chan) : M unit := λ w,
  if decide (c ∈ closed_chans w) then Panic "close of closed channel"
  else Ret tt (mkWorld (bus w) (next_chan w) ({[c]} ∪ closed_chans w)
                 (goroutines w) (trace w ++ [EvClose c])).

(** [c <- data] inside a function that recovers: the value of
    [recover()] is returned, [None] for nil.  On a closed channel the
    send panics; on an open one it waits for the subscriber, which takes
    the value ([recv]) or never does. *)
Definition chan_send (s : sender) (c : chan) (data : any) (recv : bool)
    : M (option string) := λ w,
  if decide (c ∈ closed_chans w) then
    (emit (EvSend s c data false) ;; ret (Some "send on closed channel")) w
  else if recv then (emit (EvSend s c data true) ;; ret None) w
  else Block.

(** [bus.wg.Add(1)], [bus.wg.Done()], [bus.wg.Wait()].  Of the
    [sync.WaitGroup] the model keeps the counter: [Wait] returns when it
    is 0, and [Done] below 0 panics.  The panics with which the library
    answers a misuse are not modelled (an [Add] at counter 0 that races a
    pending [Wait], which the source allows when a [Publish] that took its
    snapshot before [Close()] starts its goroutines while [Close()] waits):
    where the program ends in one of them, the model goes on.  What is
    proved below that a call which uses the [WaitGroup] returns is proved
    for worlds in which no [Wait] is pending, or for runs without such an
    [Add]. *)
Definition wg_Add : M unit :=
  b ← get_bus; set_bus (set_wg (S (wg b)) b).

Definition wg_Done : M unit :=
  b ← get_bus;
  match wg b with
  | 0 => panic "sync: negative WaitGroup counter"
  | S n => set_bus (set_wg n b)
  end.

Definition wg_Wait : M unit :=
  b ← get_bus;
  match wg b with
  | 0 => ret tt
  | S _ => block
  end.

(** [go func(ch chan any) {...}(sub)]: the goroutine is started and runs
    later, see [run_goroutine]. *)
Definition go (c : chan) (data : any) : M unit := λ w,
  Ret tt (mkWorld (bus w) (next_chan w) (closed_chans w)
            (goroutines w ++ [(c, data)]) (trace w ++ [EvGo c data])).

Definition end_goroutine (i : nat) : M unit := λ w,
  Ret tt (mkWorld (bus w) (next_chan w) (closed_chans w)
            (delete i (goroutines w)) (trace w)).

Definition log_Printf (msg : string) : M unit := emit (EvLog msg).

(** [for _, x := range l { f x }] over a slice. *)
Fixpoint for_each {A} (l : list A) (f : A → M unit) : M unit :=
  match l with
  | [] => ret tt
  | x :: l' => f x ;; for_each l' f
  end.

(** ** The methods of the bus *)

(** [NewEventBus()], on a runtime that has made no channel yet. *)
Definition NewEventBus : world :=
  mkWorld (mkEventBus ∅ 0 false 0) 1 ∅ [] [EvMake 0].

(** [Subscribe(topic)].  The source makes the channel before it takes the
    lock; until the critical section nothing but the calling goroutine knows
    the channel, so the model makes it at the start of the critical section,
    and the identities in a sequence grow in the order of registration. *)
Definition Subscribe (topic : string) : M chan :=
  ch ← make_chan;
  b ← get_bus;
  if closed b then
    close_chan ch ;; ret ch
  else
    set_bus (set_subscribers
               (<[topic := subs_of b topic ++ [ch]]> (subscribers b)) b) ;;
    ret ch.

(** The loop of [Unsubscribe]: [rest] is what is left of [subs] from
    index [i] on. *)
Fixpoint Unsubscribe_loop (topic : string) (subscriber : chan)
    (subs : list chan) (i : nat) (rest : list chan) : M unit :=
  match rest with
  | [] => ret tt
  | sub :: rest' =>
      if decide (sub = subscriber) then
        match slices_Delete subs i (i + 1) with
        | None => panic "slice bounds out of range"
        | Some subs' =>
            b ← get_bus;
            set_bus (set_subscribers (<[topic := subs']> (subscribers b)) b) ;;
            close_chan sub
        end
      else Unsubscribe_loop topic subscriber subs (S i) rest'
  end.

(** [Unsubscribe(topic, subscriber)]. *)
Definition Unsubscribe (topic : string) (subscriber : chan) : M unit :=
  b ← get_bus;
  let subs := subs_of b topic in
  Unsubscribe_loop topic subscriber subs 0 subs.

(** [Publish(topic, data)] run from its call to its return with no step of
    another goroutine in between; the goroutines it starts are left in
    [goroutines].  This is [Publish] as a step of another goroutine; the
    method itself is [Publish] below. *)
Definition Publish_now (topic : string) (data : any) : M unit :=
  b ← get_bus;
  if closed b then ret tt
  else
    let subs := slices_Clone (subs_of b topic) in
    for_each subs (λ sub, wg_Add ;; go sub data).

(** Which case of the [select] of a delivery goroutine is taken. *)
Inductive select_case :=
  | CaseSend
  | CaseQuit.

(** One delivery goroutine, the [i]-th of those still running, runs to
    its end.  [case ch <- data] is taken when the subscriber receives or
    when [ch] is closed (the send then panics, and the panic is recovered
    and logged); [case <-bus.quitCh] can be taken once [quitCh] is
    closed.  The deferred [wg.Done()] runs last. *)
Definition run_goroutine (i : nat) (sel : select_case) : M unit := λ w,
  match goroutines w !! i with
  | None => Block
  | Some (ch, data) =>
      (r ← match sel with
           | CaseSend => chan_send ByTask ch data true
           | CaseQuit =>
               b ← get_bus;
               if decide (quitCh b ∈ closed_chans w)
               then emit (EvAbandon ch data) ;; ret None
               else block
           end;
       match r with
       | Some r =>
           log_Printf ("eventbus: recovered from subscriber panic: " +:+ r)
       | None => ret tt
       end ;;
       wg_Done ;;
       end_goroutine i) w
  end.

(** Phase 1 of [Close], the first critical section; returns whether the
    bus was closed already. *)
Definition Close_phase1 : M bool :=
  b ← get_bus;
  if closed b then ret true
  else
    set_bus (set_closed true b) ;;
    close_chan (quitCh b) ;;
    ret false.

(** One iteration of the loop of phase 3 of [Close]. *)
Definition close_topic (topic : string) (subs : list chan) : M unit :=
  for_each subs close_chan ;;
  b ← get_bus;
  set_bus (set_subscribers (delete topic (subscribers b)) b).

(** Phase 3 of [Close], the second critical section: the entries are
    visited in the order of [range]. *)
Definition Close_phase3 : M unit :=
  b ← get_bus;
  for_each (range (subscribers b))
    (λ '(topic, subs), close_topic topic subs).

(** The atomic steps other goroutines can take. *)
Inductive action :=
  | ActSubscribe (topic : string)
  | ActUnsubscribe (topic : string) (subscriber : chan)
  | ActPublish (topic : string) (data : any)
  | ActGoroutine (i : nat) (sel : select_case)
  | ActClosePhase1
  | ActClosePhase3.

(** Phase 3 is a step of the goroutine that went through phase 1, once its
    [wg.Wait()] can return: [closed] is set and [wg] is 0.  When it has run
    already the registry is empty, and the step does nothing. *)
Definition run_action (a : action) : M unit :=
  match a with
  | ActSubscribe topic => Subscribe topic ;; ret tt
  | ActUnsubscribe topic subscriber => Unsubscribe topic subscriber
  | ActPublish topic data => Publish_now topic data
  | ActGoroutine i sel => run_goroutine i sel
  | ActClosePhase1 => Close_phase1 ;; ret tt
  | ActClosePhase3 =>
      b ← get_bus;
      if closed b then wg_Wait ;; Close_phase3 else block
  end.

Definition run_actions (acts : list action) : M unit :=
  for_each acts run_action.

(** [Close()]: [during_wait] is what the other goroutines do between the
    two critical sections. *)
Definition Close (during_wait : list action) : M unit :=
  already ← Close_phase1;
  if (already : bool) then ret tt
  else
    run_actions during_wait ;;
    wg_Wait ;;
    Close_phase3.

(** The loop of [Publish] from index [i] on: [sched i] is what the other
    goroutines do before the [i]-th delivery goroutine is started. *)
Fixpoint Publish_loop (data : any) (sched : nat → list action)
    (i : nat) (rest : list chan) : M unit :=
  match rest with
  | [] => ret tt
  | sub :: rest' =>
      run_actions (sched i) ;;
      wg_Add ;;
      go sub data ;;
      Publish_loop data sched (S i) rest'
  end.

(** [Publish(topic, data)]: the lock is released before the loop, so other
    goroutines run while the delivery goroutines are started. *)
Definition Publish (topic : string) (data : any)
    (sched : nat → list action) : M unit :=
  b ← get_bus;
  if closed b then ret tt
  else
    let subs := slices_Clone (subs_of b topic) in
    Publish_loop data sched 0 subs.

(** What happens around the [i]-th send of [PublishSync]: the steps of
    other goroutines until the send ends, and whether the subscriber takes
    the value. *)
Record send_env := mkSendEnv {
  before_send : list action;
  receives : bool;
}.

(** The loop of [PublishSync] from index [i] on. *)
Fixpoint PublishSync_loop (data : any) (sched : nat → send_env)
    (i : nat) (rest : list chan) (errs : list error) : M (list error) :=
  match rest with
  | [] => ret errs
  | sub :: rest' =>
      run_actions (before_send (sched i)) ;;
      r ← chan_send (BySync i) sub data (receives (sched i));
      let errs' :=
        match r with
        | Some r =>
            errs ++ [Errorf ("subscriber " +:+ pretty i +:+ " panic: " +:+ r)]
        | None => errs
        end in
      PublishSync_loop data sched (S i) rest' errs'
  end.

(** [PublishSync(topic, data)]; [None] is the nil error. *)
Definition PublishSync (topic : string) (data : any)
    (sched : nat → send_env) : M (option error) :=
  b ← get_bus;
  if closed b then ret (Some ErrBusClosed)
  else
    let subs := slices_Clone (subs_of b topic) in
    errs ← PublishSync_loop data sched 0 subs [];
    match errs with
    | first :: _ =>
        ret (Some (Errorf ("PublishSync: " +:+ pretty (length errs)
                           +:+ " error(s); first: " +:+ Error first)))
    | [] => ret None
    end.

(** [Topics()] and [SubscriberCount(topic)], which only read the bus. *)
Definition Topics (b : EventBus) : list string :=
  (range (subscribers b)).*1.

Definition SubscriberCount (topic : string) (b : EventBus) : nat :=
  length (subs_of b topic).

(** ** Runs of the bus *)

(** The atomic steps of a program that uses the bus: a step of [action], or
    a step of a [Publish] or a [PublishSync] that is under way: one
    delivery goroutine is started, or one send ends.  The channel of such a
    step is one of the snapshot of the call; the model allows the step for
    every channel that exists. *)
Inductive step :=
  | Act (a : action)
  | Spawn (c : chan) (data : any)
  | Send (s : sender) (c : chan) (data : any) (recv : bool).

Definition run_step (st : step) : M unit := λ w,
  match st with
  | Act a => run_action a w
  | Spawn c data =>
      if decide (c < next_chan w) then (wg_Add ;; go c data) w else Block
  | Send s c data recv =>
      if decide (c < next_chan w)
      then (chan_send s c data recv ;; ret tt) w
      else Block
  end.

Definition run_steps (steps : list step) : M unit := for_each steps run_step.

(** The worlds a program can be in after [NewEventBus()], between two
    calls or in the middle of calls. *)
Definition reachable (w : world) : Prop :=
  ∃ steps, run_steps steps NewEventBus = Ret tt w.

(** ** Reading the trace *)

Definition is_close_of (c : chan) (ev : event) : bool :=
  match ev with
  | EvClose c' => bool_decide (c' = c)
  | _ => false
  end.

Definition is_sync_send (ev : event) : bool :=
  match ev with
  | EvSend (BySync _) _ _ _ => true
  | _ => false
  end.

Definition received_on (c : chan) (ev : event) : bool :=
  match ev with
  | EvSend _ c' _ true => bool_decide (c' = c)
  | _ => false
  end.

(** How often [c] was closed, the sends of [PublishSync], and what the
    subscriber of [c] has received so far. *)
Definition closes_of (c : chan) (tr : list event) : nat :=
  length (filter (λ ev, is_close_of c ev) tr).

Definition sync_sends (tr : list event) : list event :=
  filter (λ ev, is_sync_send ev) tr.

Definition received (c : chan) (tr : list event) : list event :=
  filter (λ ev, received_on c ev) tr.

(** The sends of one run of the loop of [PublishSync] over [subs] from
    index [i] on, where [oks] says which of them were received, and the
    errors its deferred function records for the others. *)
Fixpoint sends_of (data : any) (i : nat) (subs : list chan) (oks : list bool)
    : list event :=
  match subs, oks with
  | sub :: subs', ok :: oks' =>
      EvSend (BySync i) sub data ok :: sends_of data (S i) subs' oks'
  | _, _ => []
  end.

Fixpoint failures_of (i : nat) (oks : list bool) : list nat :=
  match oks with
  | [] => []
  | ok :: oks' => (if ok : bool then [] else [i]) ++ failures_of (S i) oks'
  end.

(** Which sends of one run of the loop of [PublishSync] over [subs] from
    index [i] on are received when [gone j] lists the channels that
    [Unsubscribe] is called with while the [j]-th send waits: the send at
    index [i] is, unless its channel is in one of [gone 0], ..., [gone i]. *)
Fixpoint outcomes_of (gone : nat → list chan) (i : nat) (subs : list chan)
    : list bool :=
  match subs with
  | [] => []
  | sub :: subs' =>
      bool_decide (Forall (λ j, sub ∉ gone j) (seq 0 (S i)))
      :: outcomes_of gone (S i) subs'
  end.

Definition subscriber_error (i : nat) : error :=
  Errorf ("subscriber " +:+ pretty i +:+ " panic: send on closed channel").

Definition aggregate_error (failed : list nat) : option error :=
  match failed with
  | [] => None
  | first :: _ =>
      Some (Errorf ("PublishSync: " +:+ pretty (length failed)
                    +:+ " error(s); first: "
                    +:+ Error (subscriber_error first)))
  end.

(** ** The invariant of the bus *)

(** The registry holds open channels that [make] has handed out, each
    once and under one topic, in the order they were made; [quitCh] is not
    one of them and is closed exactly when [closed] is set; no channel was
    closed twice; [wg] counts the delivery goroutines still running. *)
Record wf (w : world) : Prop := {
  wf_reg_alloc t c : c ∈ subs_of (bus w) t → c < next_chan w;
  wf_reg_open t c : c ∈ subs_of (bus w) t → c ∉ closed_chans w;
  wf_reg_sorted t : StronglySorted lt (subs_of (bus w) t);
  wf_reg_disj t1 t2 c :
    c ∈ subs_of (bus w) t1 → c ∈ subs_of (bus w) t2 → t1 = t2;
  wf_closed_alloc c : c ∈ closed_chans w → c < next_chan w;
  wf_quit_alloc : quitCh (bus w) < next_chan w;
  wf_quit_reg t : quitCh (bus w) ∉ subs_of (bus w) t;
  wf_quit_closed : closed (bus w) = true ↔ quitCh (bus w) ∈ closed_chans w;
  wf_close_once c :
    closes_of c (trace w) = if decide (c ∈ closed_chans w) then 1 else 0;
  wf_wg : wg (bus w) = length (goroutines w);
  wf_go_alloc c data : (c, data) ∈ goroutines w → c < next_chan w;
  wf_recv_alloc c : next_chan w ≤ c → received c (trace w) = [];
}.

(** What holds between a world and any later one. *)
Record evolves (w w' : world) : Prop := {
  ev_closed : closed (bus w) = true → closed (bus w') = true;
  ev_quit : quitCh (bus w') = quitCh (bus w);
  ev_chans : closed_chans w ⊆ closed_chans w';
  ev_next : next_chan w ≤ next_chan w';
  ev_reg_closed t c :
    closed (bus w) = true → c ∈ subs_of (bus w') t → c ∈ subs_of (bus w) t;
  ev_reg_term t c :
    c ∈ subs_of (bus w) t → c ∈ subs_of (bus w') t ∨ c ∈ closed_chans w';
  ev_topics t :
    closed (bus w') = false →
    is_Some (subscribers (bus w) !! t) → is_Some (subscribers (bus w') !! t);
  ev_topics_closed t :
    closed (bus w) = true →
    is_Some (subscribers (bus w') !! t) → is_Some (subscribers (bus w) !! t);
  ev_received c :
    c ∈ closed_chans w → received c (trace w') = received c (trace w);
}.

(** A step keeps the invariant and moves the world forward. *)
Definition good (w w' : world) : Prop := wf w' ∧ evolves w w'.

(** [m] returns at [w], and [Q] holds then. *)
Definition returns {A} (m : M A) (Q : A → world → Prop) (w : world) : Prop :=
  match m w with
  | Ret a w' => Q a w'
  | Panic _ => False
  | Block => False
  end.

Definition no_sync_send (ev : event) : Prop := is_sync_send ev = false.

(** [m] adds to the trace, and only events that satisfy [P]. *)
Definition emits {A} (P : event → Prop) (m : M A) : Prop :=
  ∀ w a w', m w = Ret a w' → ∃ evs, trace w' = trace w ++ evs ∧ Forall P evs.

(** [m] does not panic at [w], and if it returns, [Q] holds. *)
Definition safe {A} (m : M A) (Q : A → world → Prop) (w : world) : Prop :=
  match m w with
  | Ret a w' => Q a w'
  | Panic _ => False
  | Block => True
  end.

End EventBus.

Global Arguments world : clear implicits.
Global Arguments event : clear implicits.
Global Arguments action : clear implicits.
Global Arguments M : clear implicits.
Global Arguments result : clear implicits.
Global Arguments send_env : clear implicits.
Global Arguments step : clear implicits.

(** The enumeration of a map that the examples use. *)
Definition range_map_to_list : MapRange :=
  {| range := map_to_list; range_perm m := reflexivity (map_to_list m) |}.

(** * Example worlds

    Concrete runs of the bus, with payloads in [nat] and maps enumerated by
    [map_to_list]. *)

Section ExampleWorlds.
#[local] Existing Instance range_map_to_list.

(** The world [m] leaves when it runs in [w] ([w] itself when it does not
    return). *)
Definition after {A} (m : M nat A) (w : world nat) : world nat :=
  match m w with
  | Ret _ w' => w'
  | _ => w
  end.

(** Two subscribers on topic A and one on B; then the first one of A leaves. *)
Definition ex_actions : list (action nat) :=
  [ActSubscribe "A"; ActSubscribe "A"; ActSubscribe "B"; ActUnsubscribe "A" 1].

Definition ex_world : world nat :=
  Eval vm_compute in after (run_actions ex_actions) NewEventBus.

(** Topic A loses its last subscriber as well. *)
Definition ex_world_A_empty : world nat :=
  Eval vm_compute in after (Unsubscribe "A" 2) ex_world.

(** A [Publish] to B is still in flight when [Close] is called; its
    goroutine gives up during the wait. *)
Definition ex_world_in_flight : world nat :=
  Eval vm_compute in after (Publish "B" 7 (λ _, [])) ex_world.

Definition ex_world_closed : world nat :=
  Eval vm_compute in after (Close [ActGoroutine 0 CaseQuit]) ex_world_in_flight.

(** [Close] has gone through its first critical section and waits for the
    delivery to B. *)
Definition ex_world_closing : world nat :=
  Eval vm_compute in after (run_action ActClosePhase1) ex_world_in_flight.

(** The subscriber of B unsubscribes while the delivery to it is in flight. *)
Definition ex_world_orphan : world nat :=
  Eval vm_compute in after (Unsubscribe "B" 3) ex_world_in_flight.

(** Three subscribers on A; while [PublishSync] waits in its second send,
    the second subscriber unsubscribes. *)
Definition ex_actions_sync : list (action nat) :=
  [ActSubscribe "A"; ActSubscribe "A"; ActSubscribe "A"].

Definition ex_world_sync : world nat :=
  Eval vm_compute in after (run_actions ex_actions_sync) NewEventBus.

Definition ex_sched (i : nat) : send_env nat :=
  match i with
  | 1 => mkSendEnv [ActUnsubscribe "A" 2] true
  | _ => mkSendEnv [] true
  end.

Definition ex_world_sync_after : world nat :=
  Eval vm_compute in after (PublishSync "A" 5 ex_sched) ex_world_sync.

(** While [PublishSync] waits in its first send, the third subscriber
    unsubscribes, and while it waits in its second send, the second one. *)
Definition ex_gone (j : nat) : list chan :=
  match j with
  | 0 => [3]
  | 1 => [2]
  | _ => []
  end.

Definition ex_sched_leave (j : nat) : send_env nat :=
  mkSendEnv (ActUnsubscribe "A" <$> ex_gone j) true.


End ExampleWorlds.

(** * Proofs *)

Section Proofs.
Context {any : Type}.
Context `{!MapRange}.

Implicit Types (w : world any) (b : EventBus) (c : chan) (t topic : string).
Implicit Types (a : action any) (data : any).

(** ** The monad *)

Lemma bind_unfold {A B} (m : M any A) (k : A → M any B) w :
  (m ≫= k) w =
    match m w with
    | Ret x w' => k x w'
    | Panic r => Panic r
    | Block => Block
    end.
Proof. reflexivity. Qed.

Lemma bind_Ret {A B} (m : M any A) (k : A → M any B) w x w' :
  m w = Ret x w' → (m ≫= k) w = k x w'.
Proof. intros Hm. by rewrite bind_unfold, Hm. Qed.

Lemma bind_inv {A B} (m : M any A) (k : A → M any B) w y w2 :
  (m ≫= k) w = Ret y w2 → ∃ x w1, m w = Ret x w1 ∧ k x w1 = Ret y w2.
Proof. rewrite bind_unfold. destruct (m w) as [x w1| |]; naive_solver. Qed.

Lemma bind_assoc {A B C} (m : M any A) (k1 : A → M any B) (k2 : B → M any C) w :
  ((m ≫= k1) ≫= k2) w = (m ≫= λ x, k1 x ≫= k2) w.
Proof. rewrite !bind_unfold. by destruct (m w). Qed.

Lemma safe_ret {A} (x : A) (Q : A → world any → Prop) w :
  Q x w → safe (mret x) Q w.
Proof. done. Qed.

Lemma safe_bind {A B} (m : M any A) (k : A → M any B) Q w :
  safe m (λ x w', safe (k x) Q w') w → safe (m ≫= k) Q w.
Proof. unfold safe. rewrite bind_unfold. by destruct (m w). Qed.

Lemma safe_mono {A} (m : M any A) (Q Q' : A → world any → Prop) w :
  (∀ x w', Q x w' → Q' x w') → safe m Q w → safe m Q' w.
Proof. unfold safe. destruct (m w); naive_solver. Qed.

Lemma safe_Ret {A} (m : M any A) Q w x w' :
  safe m Q w → m w = Ret x w' → Q x w'.
Proof. unfold safe. intros Hs Hm. by rewrite Hm in Hs. Qed.

Lemma safe_no_panic {A} (m : M any A) Q w r : safe m Q w → m w ≠ Panic r.
Proof. unfold safe. intros Hs Hm. by rewrite Hm in Hs. Qed.

Lemma returns_bind {A B} (m : M any A) (k : A → M any B) Q w :
  returns m (λ x w', returns (k x) Q w') w → returns (m ≫= k) Q w.
Proof. unfold returns. rewrite bind_unfold. by destruct (m w). Qed.

Lemma returns_mono {A} (m : M any A) (Q Q' : A → world any → Prop) w :
  (∀ x w', Q x w' → Q' x w') → returns m Q w → returns m Q' w.
Proof. unfold returns. destruct (m w); naive_solver. Qed.

Lemma returns_safe {A} (m : M any A) Q w : returns m Q w → safe m Q w.
Proof. unfold returns, safe. by destruct (m w). Qed.

Lemma returns_Ret {A} (m : M any A) Q w :
  returns m Q w → ∃ x w', m w = Ret x w' ∧ Q x w'.
Proof. unfold returns. destruct (m w); naive_solver. Qed.

Lemma for_each_app {A} (l1 l2 : list A) (f : A → M any ()) w :
  for_each (l1 ++ l2) f w = (for_each l1 f ;; for_each l2 f) w.
Proof.
  revert w. induction l1 as [|x l1 IH]; intros w; simpl; [done|].
  rewrite !bind_unfold. destruct (f x w) as [[] w1| |]; [|done..].
  rewrite IH. by rewrite bind_unfold.
Qed.

(** ** [evolves] is a preorder *)

Lemma evolves_refl w : evolves w w.
Proof. split; auto. Qed.

Lemma evolves_trans w1 w2 w3 : evolves w1 w2 → evolves w2 w3 → evolves w1 w3.
Proof.
  intros [] []. split.
  - auto.
  - congruence.
  - set_solver.
  - lia.
  - auto.
  - intros t c Hc. destruct (ev_reg_term0 t c Hc) as [?|?]; [auto|].
    right. set_solver.
  - intros t Hcl ?. apply ev_topics1; [done|]. apply ev_topics0; [|done].
    destruct (closed (bus w2)) eqn:E; [|done].
    rewrite ev_closed1 in Hcl; done.
  - auto.
  - intros c Hc. rewrite ev_received1 by set_solver. auto.
Qed.

Lemma good_trans w1 w2 w3 : good w1 w2 → good w2 w3 → good w1 w3.
Proof. intros [? ?] [? ?]. split; [done|]. eapply evolves_trans; eassumption. Qed.

Lemma safe_good_bind_from {A B} (m : M any A) (k : A → M any B) w :
  safe m (λ _ w1, good w w1) w →
  (∀ x w1, good w w1 → safe (k x) (λ _ w2, good w1 w2) w1) →
  safe (m ≫= k) (λ _ w2, good w w2) w.
Proof.
  intros Hm Hk. apply safe_bind. eapply safe_mono; [|exact Hm].
  intros x w1 Hg. eapply safe_mono; [|apply Hk, Hg].
  intros y w2 Hg2. simpl in *. eapply good_trans; eassumption.
Qed.

Lemma safe_good_bind {A B} (m : M any A) (k : A → M any B) w :
  safe m (λ _ w1, good w w1) w →
  (∀ x w1, wf w1 → safe (k x) (λ _ w2, good w1 w2) w1) →
  safe (m ≫= k) (λ _ w2, good w w2) w.
Proof.
  intros Hm Hk. apply safe_good_bind_from; [done|].
  intros x w1 [Hw1 _]. by apply Hk.
Qed.

Lemma safe_good_for_each_from {A} (l : list A) (f : A → M any ()) w0 w :
  (∀ x w1, x ∈ l → good w0 w1 → safe (f x) (λ _ w2, good w1 w2) w1) →
  good w0 w → safe (for_each l f) (λ _ w', good w w') w.
Proof.
  revert w. induction l as [|x l IH]; intros w Hf Hw; simpl.
  - split; [apply Hw|apply evolves_refl].
  - apply safe_good_bind_from.
    + apply Hf; [left|done].
    + intros _ w1 Hw1. apply IH.
      * intros y w2 Hy. apply Hf. by right.
      * eapply good_trans; eassumption.
Qed.

Lemma safe_good_for_each {A} (l : list A) (f : A → M any ()) w :
  (∀ x w1, x ∈ l → wf w1 → safe (f x) (λ _ w2, good w1 w2) w1) →
  wf w → safe (for_each l f) (λ _ w', good w w') w.
Proof.
  intros Hf Hw. apply (safe_good_for_each_from l f w).
  - intros x w1 Hx [Hw1 _]. by apply Hf.
  - split; [done|apply evolves_refl].
Qed.

(** ** The registry after an update *)

Lemma subs_of_insert b t l t' :
  subs_of (set_subscribers (<[t:=l]> (subscribers b)) b) t' =
    if decide (t = t') then l else subs_of b t'.
Proof. unfold subs_of. simpl. apply lookup_total_insert. Qed.

Lemma subs_of_delete b t t' :
  subs_of (set_subscribers (delete t (subscribers b)) b) t' =
    if decide (t = t') then [] else subs_of b t'.
Proof.
  unfold subs_of. simpl. destruct (decide (t = t')) as [->|Hne].
  - by rewrite lookup_total_delete_eq.
  - by rewrite lookup_total_delete_ne.
Qed.

Lemma subs_of_lookup b t l : subscribers b !! t = Some l → subs_of b t = l.
Proof. unfold subs_of. rewrite lookup_total_alt. by intros ->. Qed.

Lemma subs_of_None b t : subscribers b !! t = None → subs_of b t = [].
Proof. unfold subs_of. rewrite lookup_total_alt. by intros ->. Qed.

Lemma subs_of_elem_lookup b t c :
  c ∈ subs_of b t → ∃ l, subscribers b !! t = Some l ∧ c ∈ l.
Proof.
  unfold subs_of. rewrite lookup_total_alt.
  destruct (subscribers b !! t) as [l|]; simpl; [eauto|].
  by intros ?%elem_of_nil.
Qed.

(** ** The trace after an effect *)

Lemma closes_of_app c (tr1 tr2 : list (event any)) :
  closes_of c (tr1 ++ tr2) = closes_of c tr1 + closes_of c tr2.
Proof. unfold closes_of. by rewrite filter_app, length_app. Qed.

Lemma closes_of_close c c' :
  closes_of c [EvClose (any:=any) c'] = if decide (c' = c) then 1 else 0.
Proof.
  unfold closes_of. rewrite filter_cons. simpl.
  destruct (decide (c' = c)) as [->|Hne].
  - by rewrite bool_decide_eq_true_2.
  - by rewrite bool_decide_eq_false_2.
Qed.

Lemma received_app c (tr1 tr2 : list (event any)) :
  received c (tr1 ++ tr2) = received c tr1 ++ received c tr2.
Proof. apply filter_app. Qed.

Lemma sync_sends_app (tr1 tr2 : list (event any)) :
  sync_sends (tr1 ++ tr2) = sync_sends tr1 ++ sync_sends tr2.
Proof. apply filter_app. Qed.

Lemma received_send_other c s c' data ok :
  c' ≠ c → received c [EvSend s c' data ok] = [].
Proof.
  intros Hne. unfold received. rewrite filter_cons. simpl.
  destruct ok; [|done]. by rewrite bool_decide_eq_false_2.
Qed.

(** ** Sorted lists of channels *)

Lemma sorted_lt_NoDup (l : list chan) : StronglySorted lt l → NoDup l.
Proof.
  induction 1 as [|x l Hl IH Hx]; constructor; [|done].
  intros Hin. rewrite Forall_forall in Hx. specialize (Hx _ Hin). lia.
Qed.

Lemma sorted_lt_remove (l1 l2 : list chan) c :
  StronglySorted lt (l1 ++ c :: l2) → StronglySorted lt (l1 ++ l2).
Proof.
  rewrite !StronglySorted_app, StronglySorted_cons.
  intros (H12 & ? & _ & ?). split_and!; [|done..].
  intros x1 x2 ? ?. apply H12; [done|]. by right.
Qed.

Lemma sorted_lt_snoc (l : list chan) n :
  StronglySorted lt l → (∀ c, c ∈ l → c < n) → StronglySorted lt (l ++ [n]).
Proof.
  intros Hl Hn. apply StronglySorted_app_2; [|done|].
  - intros x1 x2 ? ->%list_elem_of_singleton. auto.
  - repeat constructor.
Qed.

(** ** [Subscribe] *)

Ltac mred :=
  unfold mbind, M_bind, bind, mret, M_ret, ret, panic, block, get_bus,
    set_bus, emit, make_chan, log_Printf;
  simpl.

Ltac trace_simpl :=
  rewrite ?closes_of_app, ?received_app, ?sync_sends_app;
  unfold closes_of, received, sync_sends; simpl;
  rewrite ?app_nil_r, ?Nat.add_0_r.

Lemma Subscribe_open t w :
  closed (bus w) = false →
  Subscribe t w =
    Ret (next_chan w)
      (mkWorld
         (set_subscribers
            (<[t := subs_of (bus w) t ++ [next_chan w]]> (subscribers (bus w)))
            (bus w))
         (S (next_chan w)) (closed_chans w) (goroutines w)
         (trace w ++ [EvMake (next_chan w)])).
Proof. intros Hc. unfold Subscribe. mred. by rewrite Hc. Qed.

Lemma Subscribe_closed t w :
  closed (bus w) = true →
  next_chan w ∉ closed_chans w →
  Subscribe t w =
    Ret (next_chan w)
      (mkWorld (bus w) (S (next_chan w)) ({[next_chan w]} ∪ closed_chans w)
         (goroutines w)
         ((trace w ++ [EvMake (next_chan w)]) ++ [EvClose (next_chan w)])).
Proof.
  intros Hc Hn. unfold Subscribe. mred. rewrite Hc. unfold close_chan.
  simpl. by rewrite decide_False.
Qed.

Lemma wf_next_open w : wf w → next_chan w ∉ closed_chans w.
Proof. intros Hw Hin. apply (wf_closed_alloc _ Hw) in Hin. lia. Qed.

Lemma wf_next_unreg w t : wf w → next_chan w ∉ subs_of (bus w) t.
Proof. intros Hw Hin. apply (wf_reg_alloc _ Hw) in Hin. lia. Qed.

Lemma Subscribe_good t w :
  wf w → safe (Subscribe t) (λ _ w', good w w') w.
Proof.
  intros Hw. unfold safe. destruct (closed (bus w)) eqn:Hc.
  - rewrite Subscribe_closed by eauto using wf_next_open.
    pose proof (wf_next_open _ Hw) as Hn.
    split; split; simpl; try done.
    + intros t' c Hin. apply (wf_reg_alloc _ Hw) in Hin. lia.
    + intros t' c Hin. pose proof (wf_reg_alloc _ Hw _ _ Hin).
      pose proof (wf_reg_open _ Hw _ _ Hin). set_solver by lia.
    + apply Hw.
    + apply Hw.
    + intros c [->%elem_of_singleton|Hin%(wf_closed_alloc _ Hw)]%elem_of_union; lia.
    + pose proof (wf_quit_alloc _ Hw). lia.
    + apply Hw.
    + split; [intros _|done]. apply elem_of_union_r. by apply (wf_quit_closed _ Hw).
    + intros c. rewrite !closes_of_app, closes_of_close, (wf_close_once _ Hw).
      unfold closes_of. simpl.
      destruct (decide (next_chan w = c)) as [<-|Hne].
      * rewrite decide_False by done. rewrite decide_True by set_solver. done.
      * destruct (decide (c ∈ closed_chans w)).
        -- rewrite decide_True by set_solver. lia.
        -- rewrite decide_False by set_solver. lia.
    + apply (wf_wg _ Hw).
    + intros c data Hin. apply (wf_go_alloc _ Hw) in Hin. lia.
    + intros c Hge. trace_simpl. apply (wf_recv_alloc _ Hw). lia.
    + set_solver.
    + lia.
    + auto.
    + intros c Hin. by trace_simpl.
  - rewrite Subscribe_open by done.
    split; split; simpl; try done.
    + intros t' c. rewrite subs_of_insert. case_decide.
      * intros [Hin%(wf_reg_alloc _ Hw)| ->%list_elem_of_singleton]%elem_of_app; lia.
      * intros Hin%(wf_reg_alloc _ Hw). lia.
    + intros t' c. rewrite subs_of_insert. case_decide.
      * intros [Hin%(wf_reg_open _ Hw)| ->%list_elem_of_singleton]%elem_of_app;
          [done|]. by apply wf_next_open.
      * apply Hw.
    + intros t'. rewrite subs_of_insert. case_decide; [|apply Hw].
      apply sorted_lt_snoc; [apply Hw|]. intros c. apply Hw.
    + intros t1 t2 c. rewrite !subs_of_insert.
      destruct (decide (t = t1)) as [<-|?], (decide (t = t2)) as [<-|?];
        try done; rewrite ?elem_of_app, ?list_elem_of_singleton.
      * intros [?| ->] ?; [by eapply (wf_reg_disj _ Hw)|].
        by destruct (wf_next_unreg _ t2 Hw).
      * intros ? [?| ->]; [by eapply (wf_reg_disj _ Hw)|].
        by destruct (wf_next_unreg _ t1 Hw).
      * apply Hw.
    + intros c Hin%(wf_closed_alloc _ Hw). lia.
    + pose proof (wf_quit_alloc _ Hw). lia.
    + intros t'. rewrite subs_of_insert. case_decide; [|apply Hw].
      pose proof (wf_quit_alloc _ Hw). pose proof (wf_quit_reg _ Hw t).
      set_solver by lia.
    + apply Hw.
    + intros c. rewrite closes_of_app, (wf_close_once _ Hw).
      unfold closes_of. simpl. lia.
    + apply (wf_wg _ Hw).
    + intros c data Hin. apply (wf_go_alloc _ Hw) in Hin. lia.
    + intros c Hge. trace_simpl. apply (wf_recv_alloc _ Hw). lia.
    + lia.
    + congruence.
    + intros t' c. rewrite subs_of_insert. case_decide; [|auto].
      subst. intros ?. left. set_solver.
    + intros t' _. destruct (decide (t = t')) as [->|Hne].
      * by rewrite lookup_insert_eq.
      * by rewrite lookup_insert_ne.
    + congruence.
    + intros c Hin. by trace_simpl.
Qed.

(** ** [Unsubscribe] *)

Lemma slices_Delete_one {A} (pre post : list A) (x : A) :
  slices_Delete (pre ++ x :: post) (length pre) (length pre + 1) =
    Some (pre ++ post).
Proof.
  unfold slices_Delete. rewrite decide_True.
  - f_equal. rewrite take_app_length. f_equal.
    by rewrite drop_app_add.
  - rewrite length_app. simpl. lia.
Qed.

Lemma Unsubscribe_loop_miss t c subs i rest w :
  c ∉ rest → Unsubscribe_loop t c subs i rest w = Ret tt w.
Proof.
  revert i. induction rest as [|x rest IH]; intros i Hc; simpl; [done|].
  rewrite decide_False by set_solver. apply IH. set_solver.
Qed.

Lemma Unsubscribe_loop_hit t c pre l1 l2 w :
  c ∉ l1 →
  Unsubscribe_loop t c (pre ++ l1 ++ c :: l2) (length pre) (l1 ++ c :: l2) w =
    close_chan c
      (mkWorld
         (set_subscribers (<[t := pre ++ l1 ++ l2]> (subscribers (bus w))) (bus w))
         (next_chan w) (closed_chans w) (goroutines w) (trace w)).
Proof.
  revert pre. induction l1 as [|x l1 IH]; intros pre Hc; simpl.
  - rewrite decide_True by done. by rewrite slices_Delete_one.
  - rewrite decide_False by set_solver.
    specialize (IH (pre ++ [x])). rewrite length_app in IH. simpl in IH.
    rewrite Nat.add_1_r, <-!app_assoc in IH. simpl in IH.
    apply IH. set_solver.
Qed.

Lemma Unsubscribe_miss t c w :
  c ∉ subs_of (bus w) t → Unsubscribe t c w = Ret tt w.
Proof. intros Hc. unfold Unsubscribe. mred. by apply Unsubscribe_loop_miss. Qed.

Lemma Unsubscribe_hit t c l1 l2 w :
  subs_of (bus w) t = l1 ++ c :: l2 →
  c ∉ l1 →
  Unsubscribe t c w =
    close_chan c
      (mkWorld
         (set_subscribers (<[t := l1 ++ l2]> (subscribers (bus w))) (bus w))
         (next_chan w) (closed_chans w) (goroutines w) (trace w)).
Proof.
  intros Hs Hc. unfold Unsubscribe. mred. rewrite Hs.
  apply (Unsubscribe_loop_hit t c [] l1 l2 w Hc).
Qed.

(** What [Unsubscribe] does to a world that satisfies the invariant. *)
Lemma Unsubscribe_wf_hit t c l1 l2 w :
  wf w →
  subs_of (bus w) t = l1 ++ c :: l2 →
  Unsubscribe t c w =
    Ret tt
      (mkWorld
         (set_subscribers (<[t := l1 ++ l2]> (subscribers (bus w))) (bus w))
         (next_chan w) ({[c]} ∪ closed_chans w) (goroutines w)
         (trace w ++ [EvClose c])).
Proof.
  intros Hw Hs.
  assert ((c ∉ l1) ∧ (c ∉ l2)) as [Hc1 Hc2].
  { pose proof (sorted_lt_NoDup _ (wf_reg_sorted _ Hw t)) as Hnd.
    rewrite Hs in Hnd. apply NoDup_app in Hnd as (_ & Hd & Hnd).
    apply NoDup_cons in Hnd as [? _]. split; [|done].
    intros Hin. apply (Hd _ Hin). by left. }
  rewrite (Unsubscribe_hit t c l1 l2) by done.
  unfold close_chan. simpl. rewrite decide_False; [done|].
  apply (wf_reg_open _ Hw t). rewrite Hs. set_solver.
Qed.


Lemma Unsubscribe_good t c w :
  wf w → safe (Unsubscribe t c) (λ _ w', good w w') w.
Proof.
  intros Hw. unfold safe.
  destruct (decide (c ∈ subs_of (bus w) t)) as [Hin|Hnin]; last first.
  { rewrite Unsubscribe_miss by done. split; [done|apply evolves_refl]. }
  destruct (list_elem_of_split _ _ Hin) as (l1 & l2 & Hs).
  rewrite (Unsubscribe_wf_hit t c l1 l2) by done.
  pose proof (sorted_lt_NoDup _ (wf_reg_sorted _ Hw t)) as Hnd.
  rewrite Hs in Hnd. apply NoDup_app in Hnd as (_ & Hd & Hnd).
  apply NoDup_cons in Hnd as [Hc2 _].
  assert (c ∉ l1) as Hc1 by (intros ?; eapply Hd; [done|by left]).
  set (b' := set_subscribers (<[t:=l1 ++ l2]> (subscribers (bus w))) (bus w)).
  assert (∀ t' c', c' ∈ subs_of b' t' → c' ∈ subs_of (bus w) t' ∧ c' ≠ c)
    as Hsub.
  { intros t' c'. unfold b'. rewrite subs_of_insert. case_decide as Ht.
    - subst t'. rewrite Hs. set_solver.
    - intros Hc'. split; [done|]. intros ->. apply Ht.
      by apply (wf_reg_disj _ Hw _ _ c). }
  assert (quitCh (bus w) ≠ c) as Hq.
  { intros <-. by apply (wf_quit_reg _ Hw t). }
  split; split; simpl; fold b'; try done.
  - intros t' c' [Hc' _]%Hsub. by apply (wf_reg_alloc _ Hw t').
  - intros t' c' [Hc' ?]%Hsub. apply (wf_reg_open _ Hw) in Hc'. set_solver.
  - intros t'. unfold b'. rewrite subs_of_insert.
    case_decide; [|apply (wf_reg_sorted _ Hw)].
    apply (sorted_lt_remove l1 l2 c). rewrite <-Hs. apply (wf_reg_sorted _ Hw).
  - intros t1 t2 c' [? _]%Hsub [? _]%Hsub. by apply (wf_reg_disj _ Hw _ _ c').
  - intros c'. rewrite elem_of_union, elem_of_singleton.
    intros [->|?]; [by apply (wf_reg_alloc _ Hw t)|by apply (wf_closed_alloc _ Hw)].
  - apply (wf_quit_alloc _ Hw).
  - intros t' [? _]%Hsub. by apply (wf_quit_reg _ Hw t').
  - rewrite (wf_quit_closed _ Hw). set_solver.
  - intros c'. rewrite closes_of_app, closes_of_close, (wf_close_once _ Hw).
    pose proof (wf_reg_open _ Hw _ _ Hin).
    destruct (decide (c = c')) as [<-|Hne].
    + rewrite decide_False by done. by rewrite decide_True by set_solver.
    + destruct (decide (c' ∈ closed_chans w)).
      * rewrite decide_True by set_solver. lia.
      * rewrite decide_False by set_solver. lia.
  - apply (wf_wg _ Hw).
  - apply (wf_go_alloc _ Hw).
  - intros c' Hge. trace_simpl. by apply (wf_recv_alloc _ Hw).
  - set_solver.
  - intros t' c' _ [? _]%Hsub. done.
  - intros t' c'. unfold b'. rewrite subs_of_insert. case_decide; [|auto].
    subst t'. rewrite Hs. set_solver.
  - intros t' _. destruct (decide (t = t')) as [->|Hne].
    + by rewrite lookup_insert_eq.
    + by rewrite lookup_insert_ne.
  - intros t' _. destruct (decide (t = t')) as [->|Hne].
    + intros _. unfold subs_of in Hs. rewrite lookup_total_alt in Hs.
      destruct (subscribers (bus w) !! t'); [done|].
      by destruct l1.
    + by rewrite lookup_insert_ne.
  - intros c' _. by trace_simpl.
Qed.


(** ** Steps that leave the registry and the channels alone *)

Lemma set_wg_same b : set_wg (wg b) b = b.
Proof. by destruct b. Qed.

Lemma good_frame w n gs (evs : list (event any)) :
  wf w →
  n = length gs →
  (∀ c data, (c, data) ∈ gs → c < next_chan w) →
  (∀ c, closes_of c evs = 0) →
  (∀ c, c ∈ closed_chans w ∨ next_chan w ≤ c → received c evs = []) →
  good w (mkWorld (set_wg n (bus w)) (next_chan w) (closed_chans w) gs
            (trace w ++ evs)).
Proof.
  intros Hw -> Hgs Hcl Hrecv. split; split; unfold subs_of; simpl; try done.
  - apply (wf_reg_alloc _ Hw).
  - apply (wf_reg_open _ Hw).
  - apply (wf_reg_sorted _ Hw).
  - apply (wf_reg_disj _ Hw).
  - apply (wf_closed_alloc _ Hw).
  - apply (wf_quit_alloc _ Hw).
  - apply (wf_quit_reg _ Hw).
  - apply (wf_quit_closed _ Hw).
  - intros c. rewrite closes_of_app, Hcl, Nat.add_0_r. apply (wf_close_once _ Hw).
  - intros c Hge. rewrite received_app, Hrecv, app_nil_r by auto.
    by apply (wf_recv_alloc _ Hw).
  - auto.
  - intros c Hc. by rewrite received_app, Hrecv, app_nil_r by auto.

Qed.

Lemma good_frame_trace w (evs : list (event any)) :
  wf w →
  (∀ c, closes_of c evs = 0) →
  (∀ c, c ∈ closed_chans w ∨ next_chan w ≤ c → received c evs = []) →
  good w (mkWorld (bus w) (next_chan w) (closed_chans w) (goroutines w)
            (trace w ++ evs)).
Proof.
  intros Hw Hcl Hrecv. rewrite <-(set_wg_same (bus w)) at 1.
  apply good_frame; [done|apply (wf_wg _ Hw)|apply (wf_go_alloc _ Hw)|done..].
Qed.

(** ** [Publish] *)

Lemma Publish_now_good topic data w :
  wf w → safe (Publish_now topic data) (λ _ w', good w w') w.
Proof.
  intros Hw. unfold Publish_now, safe. rewrite bind_unfold. simpl.
  destruct (closed (bus w)) eqn:Hc.
  { split; [done|apply evolves_refl]. }
  apply (safe_good_for_each_from _ _ w); [|split; [done|apply evolves_refl]].
  intros sub w1 Hsub [Hw1 Hev]. unfold safe, wg_Add, go. mred.
  apply (good_frame w1 (S (wg (bus w1))) (goroutines w1 ++ [(sub, data)])
           [EvGo sub data]); [done| | |by intros; trace_simpl..].
  - rewrite length_app, (wf_wg _ Hw1). simpl. lia.
  - intros c d [Hin|Hin]%elem_of_app.
    + by apply (wf_go_alloc _ Hw1 c d).
    + apply list_elem_of_singleton in Hin. injection Hin as -> ->.
      apply (wf_reg_alloc _ Hw) in Hsub. pose proof (ev_next _ _ Hev). lia.
Qed.

(** ** A delivery goroutine *)

Lemma run_goroutine_good i sel w :
  wf w → safe (run_goroutine i sel) (λ _ w', good w w') w.
Proof.
  intros Hw. unfold safe, run_goroutine.
  destruct (goroutines w !! i) as [[ch data]|] eqn:Hi; [|done].
  pose proof (lookup_lt_Some _ _ _ Hi) as Hlt.
  pose proof (wf_wg _ Hw) as Hwg.
  destruct (wg (bus w)) as [|n] eqn:Hn; [lia|].
  assert (n = length (delete i (goroutines w))) as Hlen.
  { rewrite length_delete by eauto. lia. }
  assert (∀ c d, (c, d) ∈ delete i (goroutines w) → c < next_chan w) as Hgs.
  { intros c d Hin%list_elem_of_delete_inv. by apply (wf_go_alloc _ Hw c d). }
  assert (ch < next_chan w) as Hch_alloc.
  { apply (wf_go_alloc _ Hw ch data). by eapply list_elem_of_lookup_2. }
  destruct sel; unfold chan_send, wg_Done, end_goroutine; mred.
  - destruct (decide (ch ∈ closed_chans w)) as [Hch|Hch]; simpl;
      rewrite Hn; simpl; rewrite <-?app_assoc.
    + apply (good_frame w n); [done|done|done|by intros c; trace_simpl|].
      intros c _. by trace_simpl.
    + apply (good_frame w n); [done|done|done|by intros c; trace_simpl|].
      intros c Hc. apply received_send_other. intros ->.
      destruct Hc; [done|lia].
  - destruct (decide (quitCh (bus w) ∈ closed_chans w)); simpl; [|done].
    rewrite Hn. simpl.
    apply (good_frame w n); [done|done|done|by intros c; trace_simpl|].
    intros c _. by trace_simpl.
Qed.

(** ** [Close] *)

Lemma Close_phase1_closed w :
  closed (bus w) = true → Close_phase1 w = Ret true w.
Proof. intros Hc. unfold Close_phase1. mred. by rewrite Hc. Qed.

Lemma Close_phase1_open w :
  closed (bus w) = false →
  quitCh (bus w) ∉ closed_chans w →
  Close_phase1 w =
    Ret false
      (mkWorld (set_closed true (bus w)) (next_chan w)
         ({[quitCh (bus w)]} ∪ closed_chans w) (goroutines w)
         (trace w ++ [EvClose (quitCh (bus w))])).
Proof.
  intros Hc Hq. unfold Close_phase1. mred. rewrite Hc. unfold close_chan.
  simpl. by rewrite decide_False.
Qed.

Lemma Close_phase1_sets_closed w x w' :
  Close_phase1 w = Ret x w' → closed (bus w') = true.
Proof.
  unfold Close_phase1. rewrite bind_unfold. simpl.
  destruct (closed (bus w)) eqn:Hc; [by intros [= _ <-]|].
  unfold close_chan. mred. case_decide; [done|]. by intros [= _ <-].
Qed.

Lemma wf_quit_open w : wf w → closed (bus w) = false → quitCh (bus w) ∉ closed_chans w.
Proof.
  intros Hw Hc Hq. apply (wf_quit_closed _ Hw) in Hq. congruence.
Qed.

Lemma Close_phase1_good w :
  wf w → safe Close_phase1 (λ _ w', good w w') w.
Proof.
  intros Hw. unfold safe. destruct (closed (bus w)) eqn:Hc.
  { rewrite Close_phase1_closed by done. split; [done|apply evolves_refl]. }
  pose proof (wf_quit_open _ Hw Hc) as Hq.
  rewrite Close_phase1_open by done.
  split; split; unfold subs_of; simpl; try done.
  - apply (wf_reg_alloc _ Hw).
  - intros t c Hin. pose proof (wf_reg_open _ Hw _ _ Hin).
    pose proof (wf_quit_reg _ Hw t). set_solver.
  - apply (wf_reg_sorted _ Hw).
  - apply (wf_reg_disj _ Hw).
  - intros c. rewrite elem_of_union, elem_of_singleton.
    intros [->|?]; [apply (wf_quit_alloc _ Hw)|by apply (wf_closed_alloc _ Hw)].
  - apply (wf_quit_alloc _ Hw).
  - apply (wf_quit_reg _ Hw).
  - split; [set_solver|done].
  - intros c. rewrite closes_of_app, closes_of_close, (wf_close_once _ Hw).
    destruct (decide (quitCh (bus w) = c)) as [<-|Hne].
    + rewrite decide_False by done. by rewrite decide_True by set_solver.
    + destruct (decide (c ∈ closed_chans w)).
      * rewrite decide_True by set_solver. lia.
      * rewrite decide_False by set_solver. lia.
  - apply (wf_wg _ Hw).
  - apply (wf_go_alloc _ Hw).
  - intros c Hge. trace_simpl. by apply (wf_recv_alloc _ Hw).
  - set_solver.
  - auto.
  - intros c _. by trace_simpl.
Qed.

(** Closing the subscribers of one topic. *)
Lemma close_subs_spec (subs : list chan) w :
  NoDup subs →
  (∀ c, c ∈ subs → c ∉ closed_chans w) →
  for_each subs close_chan w =
    Ret tt
      (mkWorld (bus w) (next_chan w) (list_to_set subs ∪ closed_chans w)
         (goroutines w) (trace w ++ (EvClose <$> subs))).
Proof.
  revert w. induction subs as [|c subs IH]; intros w Hnd Hopen; simpl.
  - mred. destruct w. simpl. f_equal. f_equal; [set_solver|by rewrite app_nil_r].
  - apply NoDup_cons in Hnd as [Hc Hnd].
    rewrite bind_unfold. unfold close_chan at 1.
    rewrite decide_False by (apply Hopen; left).
    rewrite IH; simpl; [|done|].
    + f_equal. f_equal; [set_solver|by rewrite <-app_assoc].
    + intros c' Hc'. pose proof (Hopen c'). set_solver.
Qed.


Lemma closes_of_fmap_close c (subs : list chan) :
  NoDup subs →
  closes_of c (EvClose (any:=any) <$> subs) = if decide (c ∈ subs) then 1 else 0.
Proof.
  induction 1 as [|c' subs Hc' Hnd IH].
  - by rewrite decide_False by set_solver.
  - rewrite fmap_cons.
    change (EvClose c' :: (EvClose <$> subs))
      with ([EvClose (any:=any) c'] ++ (EvClose <$> subs)).
    rewrite closes_of_app, closes_of_close, IH.
    destruct (decide (c' = c)) as [->|Hne].
    + rewrite decide_False by done. by rewrite decide_True by set_solver.
    + destruct (decide (c ∈ subs)).
      * by rewrite decide_True by set_solver.
      * by rewrite decide_False by set_solver.
Qed.

Lemma received_fmap_close c (subs : list chan) :
  received c (EvClose (any:=any) <$> subs) = [].
Proof. induction subs as [|c' subs IH]; [done|]. by rewrite fmap_cons. Qed.

Lemma close_topic_spec t l w :
  wf w →
  subscribers (bus w) !! t = Some l →
  close_topic t l w =
    Ret tt
      (mkWorld (set_subscribers (delete t (subscribers (bus w))) (bus w))
         (next_chan w) (list_to_set l ∪ closed_chans w) (goroutines w)
         (trace w ++ (EvClose <$> l))).
Proof.
  intros Hw Hl. apply subs_of_lookup in Hl. unfold close_topic.
  rewrite bind_unfold, close_subs_spec; [done| |].
  - rewrite <-Hl. apply sorted_lt_NoDup, (wf_reg_sorted _ Hw).
  - intros c Hc. apply (wf_reg_open _ Hw t). by rewrite Hl.
Qed.

Lemma close_topic_good t l w :
  wf w →
  closed (bus w) = true →
  subscribers (bus w) !! t = Some l →
  safe (close_topic t l) (λ _ w', good w w') w.
Proof.
  intros Hw Hcl Hl. unfold safe. rewrite close_topic_spec by done.
  apply subs_of_lookup in Hl.
  set (b' := set_subscribers (delete t (subscribers (bus w))) (bus w)).
  assert (∀ t' c, c ∈ subs_of b' t' → c ∈ subs_of (bus w) t' ∧ c ∉ l) as Hsub.
  { intros t' c. unfold b'. rewrite subs_of_delete. case_decide as Ht.
    - by intros ?%elem_of_nil.
    - intros Hc. split; [done|]. rewrite <-Hl. intros Hc'. apply Ht.
      by apply (wf_reg_disj _ Hw _ _ c). }
  assert (NoDup l) as Hnd.
  { rewrite <-Hl. apply sorted_lt_NoDup, (wf_reg_sorted _ Hw). }
  split; split; simpl; fold b'; try done.
  - intros t' c [Hc _]%Hsub. by apply (wf_reg_alloc _ Hw t').
  - intros t' c [Hc ?]%Hsub. apply (wf_reg_open _ Hw) in Hc. set_solver.
  - intros t'. unfold b'. rewrite subs_of_delete.
    case_decide; [constructor|apply (wf_reg_sorted _ Hw)].
  - intros t1 t2 c [? _]%Hsub [? _]%Hsub. by apply (wf_reg_disj _ Hw _ _ c).
  - intros c. rewrite elem_of_union, elem_of_list_to_set.
    intros [Hc|?]; [|by apply (wf_closed_alloc _ Hw)].
    apply (wf_reg_alloc _ Hw t). by rewrite Hl.
  - apply (wf_quit_alloc _ Hw).
  - intros t' [? _]%Hsub. by apply (wf_quit_reg _ Hw t').
  - rewrite (wf_quit_closed _ Hw). split; [set_solver|].
    rewrite elem_of_union, elem_of_list_to_set. intros [Hq|?]; [|done].
    destruct (wf_quit_reg _ Hw t). by rewrite Hl.
  - intros c. rewrite closes_of_app, closes_of_fmap_close, (wf_close_once _ Hw)
      by done.
    destruct (decide (c ∈ l)) as [Hc|Hc].
    + assert (c ∉ closed_chans w) as Hopen.
      { apply (wf_reg_open _ Hw t). by rewrite Hl. }
      rewrite (decide_False (P:=c ∈ closed_chans w)) by done.
      by rewrite decide_True by set_solver.
    + destruct (decide (c ∈ closed_chans w)).
      * rewrite decide_True by set_solver. lia.
      * rewrite decide_False by set_solver. lia.
  - apply (wf_wg _ Hw).
  - apply (wf_go_alloc _ Hw).
  - intros c Hge. rewrite received_app, received_fmap_close, app_nil_r.
    by apply (wf_recv_alloc _ Hw).
  - set_solver.
  - intros t' c _ [? _]%Hsub. done.
  - intros t' c Hc. unfold b'. rewrite subs_of_delete. case_decide; [|auto].
    subst t'. right. rewrite Hl in Hc. set_solver.
  - intros t' ?. congruence.
  - intros t' _ [x [_ Hx]%lookup_delete_Some]. by eexists.
  - intros c _. by rewrite received_app, received_fmap_close, app_nil_r.
Qed.

Lemma Close_phase3_loop_good (rest : list (string * list chan)) w :
  wf w →
  closed (bus w) = true →
  NoDup rest.*1 →
  (∀ t l, (t, l) ∈ rest → subscribers (bus w) !! t = Some l) →
  (∀ t, is_Some (subscribers (bus w) !! t) → t ∈ rest.*1) →
  returns (for_each rest (λ '(topic, subs), close_topic topic subs))
    (λ _ w', good w w' ∧ subscribers (bus w') = ∅) w.
Proof.
  revert w. induction rest as [|[t l] rest IH]; intros w Hw Hcl Hnd Hin Hdom.
  - simpl. split; [split; [done|apply evolves_refl]|].
    apply map_eq. intros t. rewrite lookup_empty.
    apply eq_None_not_Some. intros Ht%Hdom. by apply elem_of_nil in Ht.
  - simpl in *. apply NoDup_cons in Hnd as [Ht Hnd].
    assert (subscribers (bus w) !! t = Some l) as Hl by (apply Hin; left).
    apply returns_bind.
    pose proof (close_topic_good t l w Hw Hcl Hl) as Hstep.
    unfold safe in Hstep. unfold returns at 1.
    rewrite close_topic_spec in Hstep |- * by done.
    destruct Hstep as [Hw1 Hev1].
    eapply returns_mono; [|apply IH; simpl; try done].
    + intros _ w' [Hg ->]. split; [|done].
      eapply good_trans; [|exact Hg]. by split.
    + intros t' l' Hin'. rewrite lookup_delete_ne.
      * apply Hin. by right.
      * intros <-. apply Ht. apply list_elem_of_fmap. by exists (t, l').
    + intros t' [x Hx]. apply lookup_delete_Some in Hx as [Hne Hx].
      assert (t' ∈ t :: rest.*1) as Hin' by (apply Hdom; by eexists).
      apply elem_of_cons in Hin' as [->|?]; done.
Qed.

Lemma Close_phase3_unfold w :
  Close_phase3 w =
    for_each (range (subscribers (bus w)))
      (λ '(topic, subs), close_topic topic subs) w.
Proof. reflexivity. Qed.

Lemma Close_phase3_returns w :
  wf w →
  closed (bus w) = true →
  returns Close_phase3 (λ _ w', good w w' ∧ subscribers (bus w') = ∅) w.
Proof.
  intros Hw Hcl. unfold returns. rewrite Close_phase3_unfold.
  apply Close_phase3_loop_good; [done|done|..].
  - rewrite range_perm. apply NoDup_fst_map_to_list.
  - intros t l. rewrite range_perm. apply elem_of_map_to_list.
  - intros t [l Hl]. apply list_elem_of_fmap. exists (t, l).
    split; [done|]. rewrite range_perm. by apply elem_of_map_to_list.
Qed.

Lemma Close_phase3_good w :
  wf w →
  closed (bus w) = true →
  safe Close_phase3 (λ _ w', good w w' ∧ subscribers (bus w') = ∅) w.
Proof. intros. by apply returns_safe, Close_phase3_returns. Qed.

Lemma wg_Wait_good w : safe wg_Wait (λ _ w', w' = w) w.
Proof. unfold safe, wg_Wait. mred. by destruct (wg (bus w)). Qed.

(** ** Steps, calls and reachable worlds keep the invariant *)

Lemma safe_good_drop {A} (m : M any A) w :
  safe m (λ _ w', good w w') w → safe (m ≫= λ _, mret tt) (λ _ w', good w w') w.
Proof. intros Hm. apply safe_bind. eapply safe_mono; [|exact Hm]. done. Qed.

Lemma run_action_good a w :
  wf w → safe (run_action a) (λ _ w', good w w') w.
Proof.
  intros Hw. destruct a as [t|t c|t data|i sel| |]; simpl.
  - apply safe_good_drop. by apply Subscribe_good.
  - by apply Unsubscribe_good.
  - by apply Publish_now_good.
  - by apply run_goroutine_good.
  - apply safe_good_drop. by apply Close_phase1_good.
  - unfold safe. rewrite bind_unfold. simpl.
    destruct (closed (bus w)) eqn:Hc; [|done].
    rewrite bind_unfold. pose proof (wg_Wait_good w) as Hwait.
    unfold safe in Hwait. destruct (wg_Wait w) as [[] w1| |]; [|done..].
    subst w1. pose proof (Close_phase3_good w Hw Hc) as H3.
    unfold safe in H3. destruct (Close_phase3 w); naive_solver.
Qed.

Lemma run_actions_good (acts : list (action any)) w :
  wf w → safe (run_actions acts) (λ _ w', good w w') w.
Proof.
  intros Hw. apply safe_good_for_each; [|done].
  intros a w1 _ Hw1. by apply run_action_good.
Qed.

Lemma chan_send_good s c data recv w :
  wf w → c < next_chan w →
  safe (chan_send s c data recv) (λ _ w', good w w') w.
Proof.
  intros Hw Hlt. unfold safe, chan_send.
  destruct (decide (c ∈ closed_chans w)) as [Hc|Hc]; mred.
  - apply good_frame_trace; [done|by intros c'; trace_simpl|].
    intros c' _. by trace_simpl.
  - destruct recv; [|done].
    apply good_frame_trace; [done|by intros c'; trace_simpl|].
    intros c' Hc'. apply received_send_other. intros ->.
    destruct Hc'; [done|lia].
Qed.

Lemma spawn_good sub data w :
  wf w → sub < next_chan w →
  safe (wg_Add ;; go sub data) (λ _ w', good w w') w.
Proof.
  intros Hw Hlt. unfold safe, wg_Add, go. mred.
  apply (good_frame w (S (wg (bus w))) (goroutines w ++ [(sub, data)])
           [EvGo sub data]); [done| | |by intros; trace_simpl..].
  - rewrite length_app, (wf_wg _ Hw). simpl. lia.
  - intros c d [Hin|Hin]%elem_of_app.
    + by apply (wf_go_alloc _ Hw c d).
    + apply list_elem_of_singleton in Hin. by injection Hin as -> ->.
Qed.

Lemma Publish_loop_good data sched i rest w :
  wf w →
  (∀ c, c ∈ rest → c < next_chan w) →
  safe (Publish_loop data sched i rest) (λ _ w', good w w') w.
Proof.
  revert i w. induction rest as [|sub rest IH]; intros i w Hw Hlt; simpl.
  - split; [done|apply evolves_refl].
  - apply safe_good_bind_from; [by apply run_actions_good|].
    intros _ w1 [Hw1 Hev1]. pose proof (ev_next _ _ Hev1).
    assert (sub < next_chan w1) as Hsub.
    { specialize (Hlt sub). set_solver by lia. }
    unfold safe.
    rewrite <-(bind_assoc wg_Add (λ _, go sub data)
                 (λ _, Publish_loop data sched (S i) rest)).
    apply safe_good_bind_from; [by apply spawn_good|].
    intros _ w2 [Hw2 Hev2]. pose proof (ev_next _ _ Hev2).
    apply IH; [done|]. intros c Hc. specialize (Hlt c). set_solver by lia.
Qed.

Lemma Publish_good topic data sched w :
  wf w → safe (Publish topic data sched) (λ _ w', good w w') w.
Proof.
  intros Hw. unfold Publish, safe. rewrite bind_unfold. simpl.
  destruct (closed (bus w)).
  { split; [done|apply evolves_refl]. }
  apply Publish_loop_good; [done|]. apply (wf_reg_alloc _ Hw).
Qed.

(** With no step of another goroutine in between, [Publish] is [Publish_now]. *)
Lemma Publish_uninterrupted topic data w :
  Publish topic data (λ _, []) w = Publish_now topic data w.
Proof.
  unfold Publish, Publish_now. rewrite !bind_unfold. simpl.
  destruct (closed (bus w)); [done|].
  generalize 0. generalize (slices_Clone (subs_of (bus w) topic)). clear.
  intros l. revert w. induction l as [|sub l IH]; intros w i; [done|].
  cbn [Publish_loop for_each]. rewrite !bind_unfold. cbn [run_actions for_each].
  unfold wg_Add, go. mred. apply IH.
Qed.

Lemma PublishSync_loop_good data sched i rest errs w :
  wf w →
  (∀ c, c ∈ rest → c < next_chan w) →
  safe (PublishSync_loop data sched i rest errs) (λ _ w', good w w') w.
Proof.
  revert i errs w.
  induction rest as [|sub rest IH]; intros i errs w Hw Hlt; simpl.
  - split; [done|apply evolves_refl].
  - apply safe_good_bind_from; [by apply run_actions_good|].
    intros _ w1 [Hw1 Hev1]. pose proof (ev_next _ _ Hev1).
    apply safe_good_bind_from.
    { apply chan_send_good; [done|]. specialize (Hlt sub). set_solver by lia. }
    intros r w2 [Hw2 Hev2]. pose proof (ev_next _ _ Hev2).
    apply IH; [done|]. intros c Hc. specialize (Hlt c). set_solver by lia.
Qed.

Lemma PublishSync_good topic data sched w :
  wf w → safe (PublishSync topic data sched) (λ _ w', good w w') w.
Proof.
  intros Hw. unfold PublishSync, safe. rewrite bind_unfold. simpl.
  destruct (closed (bus w)).
  { split; [done|apply evolves_refl]. }
  rewrite bind_unfold.
  pose proof (PublishSync_loop_good data sched 0
                (slices_Clone (subs_of (bus w) topic)) [] w Hw) as Hloop.
  unfold safe in Hloop.
  destruct (PublishSync_loop _ _ _ _ _ w) as [errs w1| |].
  - destruct errs; apply Hloop, (wf_reg_alloc _ Hw).
  - apply Hloop, (wf_reg_alloc _ Hw).
  - done.
Qed.

Lemma Close_good during_wait w :
  wf w →
  safe (Close during_wait)
    (λ _ w', good w w' ∧ closed (bus w') = true ∧
             (closed (bus w) = false → subscribers (bus w') = ∅)) w.
Proof.
  intros Hw. unfold Close, safe. rewrite bind_unfold.
  destruct (closed (bus w)) eqn:Hc.
  { rewrite Close_phase1_closed by done. simpl.
    split; [|done]. split; [done|apply evolves_refl]. }
  pose proof (Close_phase1_good w Hw) as H1. unfold safe in H1.
  rewrite Close_phase1_open in H1 |- * by eauto using wf_quit_open.
  set (w1 := mkWorld _ _ _ _ _) in *. rewrite bind_unfold.
  pose proof (run_actions_good during_wait w1 (proj1 H1)) as H2.
  unfold safe in H2.
  destruct (run_actions during_wait w1) as [[] w2| |]; [|done..].
  rewrite bind_unfold. pose proof (wg_Wait_good w2) as Hwait.
  unfold safe in Hwait. destruct (wg_Wait w2) as [[] w2'| |]; [|done..].
  subst w2'.
  assert (closed (bus w2) = true) as Hc2.
  { apply (ev_closed _ _ (proj2 H2)). done. }
  pose proof (Close_phase3_good w2 (proj1 H2) Hc2) as H3. unfold safe in H3.
  destruct (Close_phase3 w2) as [[] w3| |]; [|done..].
  destruct H3 as [H3 Hempty]. split_and!; [|by apply (ev_closed _ _ (proj2 H3))|done].
  eapply good_trans; [exact H1|]. eapply good_trans; [exact H2|exact H3].
Qed.

Lemma run_step_good (st : step any) w :
  wf w → safe (run_step st) (λ _ w', good w w') w.
Proof.
  intros Hw. destruct st as [a|c data|s c data recv]; unfold safe; simpl.
  - by apply run_action_good.
  - case_decide; [|done]. by apply spawn_good.
  - case_decide; [|done].
    apply (safe_good_drop (chan_send s c data recv)). by apply chan_send_good.
Qed.

Lemma run_steps_good (steps : list (step any)) w :
  wf w → safe (run_steps steps) (λ _ w', good w w') w.
Proof.
  intros Hw. apply safe_good_for_each; [|done].
  intros st w1 _ Hw1. by apply run_step_good.
Qed.

Lemma run_steps_wf_evolves steps w w' :
  wf w → run_steps steps w = Ret tt w' → wf w' ∧ evolves w w'.
Proof.
  intros Hw Hrun. pose proof (run_steps_good steps w Hw) as Hg.
  unfold safe in Hg. by rewrite Hrun in Hg.
Qed.

Lemma NewEventBus_wf : wf (NewEventBus (any:=any)).
Proof.
  split; unfold subs_of; simpl; try done.
  - intros t c. rewrite lookup_total_empty. by intros ?%elem_of_nil.
  - intros t. rewrite lookup_total_empty. constructor.
  - intros t1 t2 c. rewrite lookup_total_empty. by intros ?%elem_of_nil.
  - lia.
  - intros t. rewrite lookup_total_empty. by intros ?%elem_of_nil.
  - intros c data ?%elem_of_nil. done.
Qed.

Lemma reachable_wf w : reachable w → wf w.
Proof.
  intros [steps Hrun]. by apply (run_steps_wf_evolves _ _ _ NewEventBus_wf Hrun).
Qed.

Lemma reachable_new : reachable (NewEventBus (any:=any)).
Proof. by exists []. Qed.

Lemma reachable_run_steps steps w w' :
  reachable w → run_steps steps w = Ret tt w' → reachable w'.
Proof.
  intros [steps0 Hrun0] Hrun. exists (steps0 ++ steps). unfold run_steps in *.
  rewrite for_each_app, bind_unfold, Hrun0. done.
Qed.

(** ** The calls are made of steps *)

Lemma run_steps_app (l1 l2 : list (step any)) w w1 w2 :
  run_steps l1 w = Ret tt w1 → run_steps l2 w1 = Ret tt w2 →
  run_steps (l1 ++ l2) w = Ret tt w2.
Proof.
  intros H1 H2. unfold run_steps in *.
  by rewrite for_each_app, bind_unfold, H1.
Qed.

Lemma run_steps_one (st : step any) w w' :
  run_step st w = Ret tt w' → run_steps [st] w = Ret tt w'.
Proof. intros Hrun. unfold run_steps. simpl. by rewrite bind_unfold, Hrun. Qed.

Lemma run_steps_Act (acts : list (action any)) w :
  run_steps (Act <$> acts) w = run_actions acts w.
Proof.
  revert w. induction acts as [|a acts IH]; intros w; [done|].
  rewrite fmap_cons. unfold run_steps, run_actions in *. simpl.
  rewrite !bind_unfold. simpl. destruct (run_action a w); [apply IH|done..].
Qed.

Lemma run_actions_steps (acts : list (action any)) w w' :
  run_actions acts w = Ret tt w' → ∃ steps, run_steps steps w = Ret tt w'.
Proof. intros Hrun. exists (Act <$> acts). by rewrite run_steps_Act. Qed.

Lemma Subscribe_steps t w c w' :
  Subscribe t w = Ret c w' → ∃ steps, run_steps steps w = Ret tt w'.
Proof.
  intros Hrun. exists [Act (ActSubscribe t)]. apply run_steps_one. simpl.
  by rewrite bind_unfold, Hrun.
Qed.

Lemma Unsubscribe_steps t c w w' :
  Unsubscribe t c w = Ret tt w' → ∃ steps, run_steps steps w = Ret tt w'.
Proof.
  intros Hrun. exists [Act (ActUnsubscribe t c)]. by apply run_steps_one.
Qed.

Lemma Publish_loop_steps data sched i rest w w' :
  wf w →
  (∀ c, c ∈ rest → c < next_chan w) →
  Publish_loop data sched i rest w = Ret tt w' →
  ∃ steps, run_steps steps w = Ret tt w'.
Proof.
  revert i w. induction rest as [|sub rest IH]; intros i w Hw Hlt; simpl.
  { intros [= <-]. by exists []. }
  intros ([] & w1 & Henv & Hrest)%bind_inv.
  rewrite <-(bind_assoc wg_Add (λ _, go sub data)
               (λ _, Publish_loop data sched (S i) rest)) in Hrest.
  apply bind_inv in Hrest as ([] & w2 & Hspawn & Hrest).
  destruct (run_steps_wf_evolves (Act <$> sched i) w w1 Hw) as [Hw1 Hev1];
    [by rewrite run_steps_Act|].
  pose proof (ev_next _ _ Hev1).
  assert (sub < next_chan w1) as Hsub.
  { specialize (Hlt sub). set_solver by lia. }
  assert (run_steps [Spawn sub data] w1 = Ret tt w2) as Hstep.
  { apply run_steps_one. simpl. by rewrite decide_True by done. }
  destruct (run_steps_wf_evolves _ _ _ Hw1 Hstep) as [Hw2 Hev2].
  pose proof (ev_next _ _ Hev2).
  destruct (IH (S i) w2 Hw2) as [steps Hsteps]; [|done|].
  { intros c Hc. specialize (Hlt c). set_solver by lia. }
  exists ((Act <$> sched i) ++ [Spawn sub data] ++ steps).
  eapply run_steps_app; [by rewrite run_steps_Act|].
  by eapply run_steps_app.
Qed.

Lemma Publish_steps topic data sched w w' :
  wf w →
  Publish topic data sched w = Ret tt w' →
  ∃ steps, run_steps steps w = Ret tt w'.
Proof.
  intros Hw. unfold Publish. rewrite bind_unfold. simpl.
  destruct (closed (bus w)).
  { intros [= <-]. by exists []. }
  apply Publish_loop_steps; [done|]. apply (wf_reg_alloc _ Hw).
Qed.

Lemma PublishSync_loop_steps data sched i rest errs w errs' w' :
  wf w →
  (∀ c, c ∈ rest → c < next_chan w) →
  PublishSync_loop data sched i rest errs w = Ret errs' w' →
  ∃ steps, run_steps steps w = Ret tt w'.
Proof.
  revert i errs w. induction rest as [|sub rest IH]; intros i errs w Hw Hlt; simpl.
  { intros [= _ <-]. by exists []. }
  intros ([] & w1 & Henv & Hrest)%bind_inv.
  apply bind_inv in Hrest as (r & w2 & Hsend & Hrest).
  destruct (run_steps_wf_evolves (Act <$> before_send (sched i)) w w1 Hw)
    as [Hw1 Hev1]; [by rewrite run_steps_Act|].
  pose proof (ev_next _ _ Hev1).
  assert (sub < next_chan w1) as Hsub.
  { specialize (Hlt sub). set_solver by lia. }
  assert (run_steps [Send (BySync i) sub data (receives (sched i))] w1 = Ret tt w2)
    as Hstep.
  { apply run_steps_one. simpl. rewrite decide_True by done.
    by rewrite bind_unfold, Hsend. }
  destruct (run_steps_wf_evolves _ _ _ Hw1 Hstep) as [Hw2 Hev2].
  pose proof (ev_next _ _ Hev2).
  apply IH in Hrest as [steps Hsteps]; [|done|].
  - exists ((Act <$> before_send (sched i)) ++
            [Send (BySync i) sub data (receives (sched i))] ++ steps).
    eapply run_steps_app; [by rewrite run_steps_Act|].
    by eapply run_steps_app.
  - intros c Hc. specialize (Hlt c). set_solver by lia.
Qed.

Lemma PublishSync_steps topic data sched w r w' :
  wf w →
  PublishSync topic data sched w = Ret r w' →
  ∃ steps, run_steps steps w = Ret tt w'.
Proof.
  intros Hw. unfold PublishSync. rewrite bind_unfold. simpl.
  destruct (closed (bus w)).
  { intros [= _ <-]. by exists []. }
  intros (errs & w1 & Hloop & Hret)%bind_inv.
  assert (w1 = w') as -> by (destruct errs; by injection Hret).
  eapply PublishSync_loop_steps; [done| |done]. apply (wf_reg_alloc _ Hw).
Qed.

Lemma Close_steps during_wait w w' :
  wf w →
  Close during_wait w = Ret tt w' →
  ∃ steps, run_steps steps w = Ret tt w'.
Proof.
  intros Hw. unfold Close.
  intros (already & w1 & H1 & Hrest)%bind_inv.
  destruct already.
  { injection Hrest as <-. exists [Act ActClosePhase1].
    apply run_steps_one. simpl. by rewrite bind_unfold, H1. }
  apply bind_inv in Hrest as ([] & w2 & H2 & H3).
  assert (run_steps [Act ActClosePhase1] w = Ret tt w1) as Hs1.
  { apply run_steps_one. simpl. by rewrite bind_unfold, H1. }
  destruct (run_steps_wf_evolves _ _ _ Hw Hs1) as [Hw1 _].
  destruct (run_steps_wf_evolves (Act <$> during_wait) w1 w2 Hw1) as [_ Hev2];
    [by rewrite run_steps_Act|].
  assert (closed (bus w2) = true) as Hc2.
  { apply (ev_closed _ _ Hev2). by apply (Close_phase1_sets_closed w false). }
  exists ([Act ActClosePhase1] ++ (Act <$> during_wait) ++ [Act ActClosePhase3]).
  eapply run_steps_app; [done|].
  eapply run_steps_app; [by rewrite run_steps_Act|].
  apply run_steps_one. simpl. rewrite bind_unfold. simpl. by rewrite Hc2.
Qed.

(** The calls of the bus take a reachable world to a reachable world. *)
Lemma reachable_after {A} (m : M any A) w x w' :
  (wf w → m w = Ret x w' → ∃ steps, run_steps steps w = Ret tt w') →
  reachable w → m w = Ret x w' → reachable w'.
Proof.
  intros Hsteps Hw Hrun.
  destruct (Hsteps (reachable_wf _ Hw) Hrun) as [steps Hs].
  by eapply reachable_run_steps.
Qed.

(** ** What a computation adds to the trace *)

Lemma emits_ret {A} (P : event any → Prop) (x : A) : emits P (mret x).
Proof.
  intros w a w' [= <- <-]. exists []. by rewrite app_nil_r.
Qed.

Lemma emits_bind {A B} (P : event any → Prop) (m : M any A) (k : A → M any B) :
  emits P m → (∀ x, emits P (k x)) → emits P (m ≫= k).
Proof.
  intros Hm Hk w b w2 (x & w1 & H1 & H2)%bind_inv.
  destruct (Hm _ _ _ H1) as (evs1 & E1 & F1).
  destruct (Hk _ _ _ _ H2) as (evs2 & E2 & F2).
  exists (evs1 ++ evs2). rewrite E2, E1, app_assoc.
  split; [done|by apply Forall_app].
Qed.

Lemma emits_if {A} (P : event any → Prop) (c : bool) (m1 m2 : M any A) :
  emits P m1 → emits P m2 → emits P (if c then m1 else m2).
Proof. by destruct c. Qed.

Lemma emits_silent {A} (P : event any → Prop) (m : M any A) :
  (∀ w x w', m w = Ret x w' → trace w' = trace w) → emits P m.
Proof.
  intros Hm w a w' Hw. exists []. rewrite app_nil_r. split; [eauto|done].
Qed.

Lemma emits_get_bus (P : event any → Prop) : emits P get_bus.
Proof. apply emits_silent. by intros w a w' [= <- <-]. Qed.

Lemma emits_set_bus (P : event any → Prop) b : emits P (set_bus b).
Proof. apply emits_silent. by intros w a w' [= _ <-]. Qed.

Lemma emits_end_goroutine (P : event any → Prop) i : emits P (end_goroutine i).
Proof. apply emits_silent. by intros w a w' [= _ <-]. Qed.

Lemma emits_panic {A} (P : event any → Prop) r : emits P (panic (A:=A) r).
Proof. by intros w a w'. Qed.

Lemma emits_block {A} (P : event any → Prop) : emits P (block (A:=A)).
Proof. by intros w a w'. Qed.

Lemma emits_emit (P : event any → Prop) ev : P ev → emits P (emit ev).
Proof. intros HP w a w' [= _ <-]. exists [ev]. split; [done|by constructor]. Qed.

Lemma emits_make_chan (P : event any → Prop) :
  (∀ c, P (EvMake c)) → emits P make_chan.
Proof.
  intros HP w a w' [= <- <-]. exists [EvMake (next_chan w)].
  split; [done|by constructor].
Qed.

Lemma emits_close_chan (P : event any → Prop) c :
  P (EvClose c) → emits P (close_chan c).
Proof.
  intros HP w a w'. unfold close_chan. case_decide; [done|].
  intros [= _ <-]. exists [EvClose c]. split; [done|by constructor].
Qed.

Lemma emits_go (P : event any → Prop) c data :
  P (EvGo c data) → emits P (go c data).
Proof.
  intros HP w a w' [= _ <-]. exists [EvGo c data]. split; [done|by constructor].
Qed.

Lemma emits_for_each {A} (P : event any → Prop) (l : list A) (f : A → M any ()) :
  (∀ x, emits P (f x)) → emits P (for_each l f).
Proof.
  intros Hf. induction l as [|x l IH]; simpl.
  - apply emits_ret.
  - apply emits_bind; auto.
Qed.

Ltac emits_step :=
  first
    [ apply emits_ret | apply emits_get_bus | apply emits_set_bus
    | apply emits_end_goroutine | apply emits_panic | apply emits_block
    | apply emits_emit; done | apply emits_make_chan; done
    | apply emits_close_chan; done | apply emits_go; done
    | apply emits_bind; [|intros ?] | apply emits_if
    | apply emits_for_each; intros ?
    | match goal with
      | |- emits _ (match ?x with _ => _ end) => destruct x
      end ].

(** The steps of other goroutines are not sends of [PublishSync]. *)
Lemma Subscribe_quiet t : emits (any:=any) no_sync_send (Subscribe t).
Proof. unfold Subscribe. repeat emits_step. Qed.

Lemma Unsubscribe_quiet t c : emits (any:=any) no_sync_send (Unsubscribe t c).
Proof.
  unfold Unsubscribe. emits_step; [emits_step|]. simpl.
  generalize 0. generalize (subs_of x t) at 2.
  induction l as [|sub rest IH]; intros i; simpl; repeat emits_step.
  apply IH.
Qed.

Lemma Publish_now_quiet topic data :
  emits (any:=any) no_sync_send (Publish_now topic data).
Proof. unfold Publish_now, wg_Add. repeat emits_step. Qed.

Lemma chan_send_emits (P : event any → Prop) s c data recv :
  (∀ ok, P (EvSend s c data ok)) → emits P (chan_send s c data recv).
Proof.
  intros HP w x w'. unfold chan_send.
  destruct (decide (c ∈ closed_chans w)); [|destruct recv; [|done]].
  - match goal with |- ?m w = _ → _ => assert (emits P m) as Hm end.
    { repeat emits_step. }
    apply Hm.
  - match goal with |- ?m w = _ → _ => assert (emits P m) as Hm end.
    { repeat emits_step. }
    apply Hm.
Qed.

Lemma run_goroutine_quiet i sel : emits (any:=any) no_sync_send (run_goroutine i sel).
Proof.
  intros w x w'. unfold run_goroutine.
  destruct (goroutines w !! i) as [[ch data]|]; [|done].
  match goal with |- ?m w = _ → _ => assert (emits no_sync_send m) as Hm end.
  { unfold wg_Done, log_Printf. emits_step; [|repeat emits_step].
    destruct sel; [by apply chan_send_emits|repeat emits_step]. }
  apply Hm.
Qed.

Lemma run_action_quiet a : emits (any:=any) no_sync_send (run_action a).
Proof.
  destruct a; simpl.
  - emits_step; [apply Subscribe_quiet|emits_step].
  - apply Unsubscribe_quiet.
  - apply Publish_now_quiet.
  - apply run_goroutine_quiet.
  - unfold Close_phase1. repeat emits_step.
  - unfold wg_Wait, Close_phase3, close_topic. repeat emits_step.
Qed.

Lemma run_actions_quiet (acts : list (action any)) :
  emits no_sync_send (run_actions acts).
Proof. apply emits_for_each, run_action_quiet. Qed.

Lemma sync_sends_quiet (evs : list (event any)) :
  Forall no_sync_send evs → sync_sends evs = [].
Proof.
  induction 1 as [|ev evs Hev _ IH]; [done|].
  unfold sync_sends in *. rewrite filter_cons_False; [done|].
  unfold no_sync_send in Hev. rewrite Hev. by intros [].
Qed.

Lemma run_actions_sync_sends (acts : list (action any)) w w' :
  run_actions acts w = Ret tt w' → sync_sends (trace w') = sync_sends (trace w).
Proof.
  intros (evs & -> & Hevs)%run_actions_quiet.
  by rewrite sync_sends_app, (sync_sends_quiet evs), app_nil_r.
Qed.


(** ** The loop of [PublishSync] *)

Lemma chan_send_inv s c data recv w r w' :
  chan_send s c data recv w = Ret r w' →
  ∃ ok : bool,
    r = (if ok then None else Some "send on closed channel") ∧
    (ok = false ↔ c ∈ closed_chans w) ∧
    w' = mkWorld (bus w) (next_chan w) (closed_chans w) (goroutines w)
           (trace w ++ [EvSend s c data ok]).
Proof.
  unfold chan_send. destruct (decide (c ∈ closed_chans w)) as [Hc|Hc].
  - intros [= <- <-]. by exists false.
  - destruct recv; [|done]. intros [= <- <-]. exists true.
    split_and!; [done| |done]. split; [done|]. by intros ?.
Qed.

Lemma PublishSync_loop_spec data sched i rest errs w errs' w' :
  PublishSync_loop data sched i rest errs w = Ret errs' w' →
  ∃ oks,
    length oks = length rest ∧
    sync_sends (trace w') = sync_sends (trace w) ++ sends_of data i rest oks ∧
    errs' = errs ++ (subscriber_error <$> failures_of i oks).
Proof.
  revert i errs w. induction rest as [|sub rest IH]; intros i errs w; simpl.
  - intros [= <- <-]. exists []. by rewrite !app_nil_r.
  - intros ([] & w1 & Henv & Hrest)%bind_inv.
    apply bind_inv in Hrest as (r & w2 & Hsend & Hrest).
    apply run_actions_sync_sends in Henv.
    apply chan_send_inv in Hsend as (ok & -> & _ & ->).
    apply IH in Hrest as (oks & Hlen & Htr & ->).
    exists (ok :: oks). simpl in *. split_and!.
    + by rewrite Hlen.
    + rewrite Htr, sync_sends_app, Henv. unfold sync_sends at 2. simpl.
      by rewrite <-app_assoc.
    + destruct ok; simpl; [done|]. by rewrite <-app_assoc.
Qed.

Lemma PublishSync_closed topic data sched w :
  closed (bus w) = true →
  PublishSync topic data sched w = Ret (Some ErrBusClosed) w.
Proof. intros Hc. unfold PublishSync. rewrite bind_unfold. simpl. by rewrite Hc. Qed.

Lemma PublishSync_open topic data sched w r w' :
  closed (bus w) = false →
  PublishSync topic data sched w = Ret r w' →
  ∃ oks,
    length oks = length (subs_of (bus w) topic) ∧
    PublishSync_loop data sched 0 (subs_of (bus w) topic) [] w =
      Ret (subscriber_error <$> failures_of 0 oks) w' ∧
    sync_sends (trace w') =
      sync_sends (trace w) ++ sends_of data 0 (subs_of (bus w) topic) oks ∧
    r = aggregate_error (failures_of 0 oks).
Proof.
  intros Hc. unfold PublishSync. rewrite bind_unfold. simpl. rewrite Hc.
  unfold slices_Clone. intros (errs & w1 & Hloop & Hret)%bind_inv.
  destruct (PublishSync_loop_spec _ _ _ _ _ _ _ _ Hloop) as (oks & Hlen & Htr & ->).
  simpl in *. exists oks.
  destruct (failures_of 0 oks) as [|first failed]; simpl in *;
    injection Hret as <- <-; split_and!; try done.
  by rewrite length_fmap.
Qed.


(** ** Introspection *)

Lemma elem_of_Topics b t : t ∈ Topics b ↔ is_Some (subscribers b !! t).
Proof.
  unfold Topics. rewrite list_elem_of_fmap. split.
  - intros ([t' l] & -> & Hin). rewrite range_perm in Hin.
    apply elem_of_map_to_list in Hin. by eexists.
  - intros [l Hl]. exists (t, l). split; [done|].
    rewrite range_perm. by apply elem_of_map_to_list.
Qed.



(** ** Removing every subscriber of a topic *)

Lemma run_actions_cons a (acts : list (action any)) w :
  run_actions (a :: acts) w = (run_action a ;; run_actions acts) w.
Proof. reflexivity. Qed.

Lemma Unsubscribe_all t (order : list chan) w :
  wf w →
  order ≡ₚ subs_of (bus w) t →
  is_Some (subscribers (bus w) !! t) →
  ∃ w', run_actions (ActUnsubscribe t <$> order) w = Ret tt w' ∧
        wf w' ∧ closed (bus w') = closed (bus w) ∧
        is_Some (subscribers (bus w') !! t) ∧ subs_of (bus w') t = [].
Proof.
  revert w. induction order as [|c order IH]; intros w Hw Hp Hsome.
  - exists w. split_and!; try done. by apply Permutation_nil_l in Hp.
  - assert (c ∈ subs_of (bus w) t) as Hin by (rewrite <-Hp; left).
    destruct (list_elem_of_split _ _ Hin) as (l1 & l2 & Hs).
    pose proof (Unsubscribe_good t c w Hw) as Hg. unfold safe in Hg.
    rewrite fmap_cons, run_actions_cons, bind_unfold. simpl.
    rewrite (Unsubscribe_wf_hit t c l1 l2) in Hg |- * by done.
    set (w1 := mkWorld _ _ _ _ _) in *. destruct Hg as [Hw1 _].
    destruct (IH w1 Hw1) as (w' & Hrun & Hw' & Hcl & Hsome' & Hnil).
    + unfold w1. simpl. rewrite subs_of_insert, decide_True by done.
      rewrite Hs in Hp. rewrite <-Permutation_middle in Hp.
      by apply Permutation_cons_inv in Hp.
    + unfold w1. simpl. by rewrite lookup_insert_eq.
    + exists w'. by split_and!.
Qed.

(** ** [Close] can always run to its end *)





(** ** Small facts the claims use *)

Lemma filter_ne_notin (l : list chan) c :
  c ∉ l → filter (λ x, x ≠ c) l = l.
Proof.
  induction l as [|x l IH]; [done|]. intros Hc.
  rewrite filter_cons_True by set_solver. f_equal. apply IH. set_solver.
Qed.

Lemma filter_ne_remove (l1 l2 : list chan) c :
  c ∉ l1 → c ∉ l2 → filter (λ x, x ≠ c) (l1 ++ c :: l2) = l1 ++ l2.
Proof.
  intros H1 H2. rewrite filter_app, filter_cons_False by naive_solver.
  by rewrite !filter_ne_notin.
Qed.

Lemma elem_of_failures_of (oks : list bool) i j :
  j ∈ failures_of i oks ↔ ∃ k, j = i + k ∧ oks !! k = Some false.
Proof.
  revert i. induction oks as [|ok oks IH]; intros i; simpl.
  - split; [by intros ?%elem_of_nil|]. by intros (k & _ & ?).
  - rewrite elem_of_app, IH. split.
    + intros [Hj|(k & -> & Hk)].
      * destruct ok; [by apply elem_of_nil in Hj|].
        apply list_elem_of_singleton in Hj as ->. exists 0. split; [lia|done].
      * exists (S k). split; [lia|done].
    + intros ([|k] & -> & Hk); simpl in Hk.
      * injection Hk as ->. left. rewrite Nat.add_0_r. by left.
      * right. exists k. split; [lia|done].
Qed.

Lemma failures_of_nil (oks : list bool) i :
  failures_of i oks = [] ↔ Forall (λ ok, ok = true) oks.
Proof.
  revert i. induction oks as [|ok oks IH]; intros i; simpl; [done|].
  rewrite Forall_cons, <-(IH (S i)). destruct ok; simpl; naive_solver.
Qed.


(** [PublishSync] returns when every subscriber takes the value and no other
    goroutine steps in. *)
Lemma PublishSync_loop_returns data sched i rest errs w :
  (∀ j, before_send (sched j) = [] ∧ receives (sched j) = true) →
  ∃ errs' w', PublishSync_loop data sched i rest errs w = Ret errs' w'.
Proof.
  intros Hsched. revert i errs w.
  induction rest as [|sub rest IH]; intros i errs w; simpl; [by eauto|].
  destruct (Hsched i) as [-> Hrecv]. rewrite bind_unfold. simpl.
  rewrite bind_unfold. unfold chan_send. rewrite Hrecv.
  destruct (decide (sub ∈ closed_chans w)); mred; apply IH.
Qed.

Lemma PublishSync_returns topic data sched w :
  (∀ j, before_send (sched j) = [] ∧ receives (sched j) = true) →
  ∃ r w', PublishSync topic data sched w = Ret r w'.
Proof.
  intros Hsched. unfold PublishSync. rewrite bind_unfold. simpl.
  destruct (closed (bus w)); [by eauto|]. rewrite bind_unfold.
  destruct (PublishSync_loop_returns data sched 0
              (slices_Clone (subs_of (bus w) topic)) [] w Hsched)
    as (errs & w' & ->).
  destruct errs; by eauto.
Qed.

(** ** [PublishSync] while subscribers of the topic leave *)

Lemma filter_all {A} (P : A → Prop) `{!∀ x, Decision (P x)} (l : list A) :
  (∀ x, x ∈ l → P x) → filter P l = l.
Proof.
  induction l as [|x l IH]; intros HP; [done|].
  rewrite filter_cons_True by (apply HP; left). f_equal. apply IH.
  intros y Hy. apply HP. by right.
Qed.

Lemma Unsubscribe_effect t c w :
  wf w →
  ∃ w',
    Unsubscribe t c w = Ret tt w' ∧
    wf w' ∧
    closed (bus w') = closed (bus w) ∧
    next_chan w' = next_chan w ∧
    sync_sends (trace w') = sync_sends (trace w) ∧
    subs_of (bus w') t = filter (λ x, x ≠ c) (subs_of (bus w) t) ∧
    (∀ x, x ∈ closed_chans w' ↔
          x ∈ closed_chans w ∨ (x = c ∧ c ∈ subs_of (bus w) t)).
Proof.
  intros Hw.
  destruct (decide (c ∈ subs_of (bus w) t)) as [Hin|Hnin]; last first.
  { exists w. rewrite Unsubscribe_miss by done. split_and!; try done.
    - by rewrite filter_ne_notin.
    - naive_solver. }
  destruct (list_elem_of_split _ _ Hin) as (l1 & l2 & Hs).
  pose proof (Unsubscribe_good t c w Hw) as Hg. unfold safe in Hg.
  rewrite (Unsubscribe_wf_hit t c l1 l2) in Hg |- * by done.
  set (w' := mkWorld _ _ _ _ _) in *. destruct Hg as [Hw' _].
  exists w'. split_and!; [done..| | |].
  - unfold w'. simpl. by trace_simpl.
  - unfold w'. simpl. rewrite subs_of_insert, decide_True by done. rewrite Hs.
    pose proof (sorted_lt_NoDup _ (wf_reg_sorted _ Hw t)) as Hnd.
    rewrite Hs in Hnd. apply NoDup_app in Hnd as (_ & Hd & Hnd).
    apply NoDup_cons in Hnd as [Hc2 _].
    rewrite filter_ne_remove; [done| |done].
    intros H1. apply (Hd _ H1). by left.
  - intros x. unfold w'. simpl. set_solver.
Qed.

Lemma Unsubscribe_list_effect t (cs : list chan) w :
  wf w →
  ∃ w',
    run_actions (ActUnsubscribe t <$> cs) w = Ret tt w' ∧
    wf w' ∧
    closed (bus w') = closed (bus w) ∧
    next_chan w' = next_chan w ∧
    sync_sends (trace w') = sync_sends (trace w) ∧
    subs_of (bus w') t = filter (λ x, x ∉ cs) (subs_of (bus w) t) ∧
    (∀ x, x ∈ closed_chans w' ↔
          x ∈ closed_chans w ∨ (x ∈ cs ∧ x ∈ subs_of (bus w) t)).
Proof.
  revert w. induction cs as [|c cs IH]; intros w Hw.
  - exists w. split_and!; try done.
    + rewrite filter_all; [done|]. intros x _. apply not_elem_of_nil.
    + intros x. split; [by left|]. intros [?|[Hx _]]; [done|].
      by apply elem_of_nil in Hx.
  - destruct (Unsubscribe_effect t c w Hw)
      as (w1 & Hrun1 & Hw1 & Hc1 & Hn1 & Hs1 & Hsubs1 & Hcl1).
    destruct (IH w1 Hw1) as (w' & Hrun & Hw' & Hc' & Hn' & Hs' & Hsubs' & Hcl').
    exists w'. split_and!; [|done|congruence|congruence|congruence| |].
    + rewrite fmap_cons, run_actions_cons, bind_unfold. simpl run_action.
      by rewrite Hrun1.
    + rewrite Hsubs', Hsubs1, list_filter_filter. apply list_filter_iff.
      intros x. rewrite not_elem_of_cons. tauto.
    + intros x. rewrite Hcl', Hcl1, Hsubs1, list_elem_of_filter, elem_of_cons.
      destruct (decide (x = c)); naive_solver.
Qed.

Lemma PublishSync_loop_unsubscribes topic data sched gone i rest errs w :
  (∀ j, before_send (sched j) = ActUnsubscribe topic <$> gone j) →
  (∀ j, receives (sched j) = true) →
  wf w →
  (∀ sub, sub ∈ rest →
     sub < next_chan w ∧
     if decide (Forall (λ j, sub ∉ gone j) (seq 0 i))
     then sub ∈ subs_of (bus w) topic else sub ∈ closed_chans w) →
  ∃ w',
    PublishSync_loop data sched i rest errs w =
      Ret (errs ++ (subscriber_error <$> failures_of i (outcomes_of gone i rest)))
        w' ∧
    wf w' ∧
    closed (bus w') = closed (bus w) ∧
    sync_sends (trace w') =
      sync_sends (trace w) ++ sends_of data i rest (outcomes_of gone i rest) ∧
    subs_of (bus w') topic =
      filter (λ x, Forall (λ j, x ∉ gone j) (seq i (length rest)))
        (subs_of (bus w) topic) ∧
    (∀ x, x ∈ closed_chans w' ↔
          x ∈ closed_chans w ∨
          (x ∈ subs_of (bus w) topic ∧
           ¬ Forall (λ j, x ∉ gone j) (seq i (length rest)))).
Proof.
  intros Hsched Hrecv. revert i errs w.
  induction rest as [|sub rest IH]; intros i errs w Hw Hinv.
  - exists w. simpl. rewrite !app_nil_r. split_and!; try done.
    + rewrite filter_all; [done|]. intros x _. constructor.
    + intros x. split; [by left|]. intros [?|[_ Hx]]; [done|].
      destruct Hx. constructor.
  - cbn [PublishSync_loop outcomes_of failures_of sends_of length].
    rewrite Hsched.
    destruct (Unsubscribe_list_effect topic (gone i) w Hw)
      as (w1 & Hacts & Hw1 & Hc1 & Hn1 & Hs1 & Hsubs1 & Hcl1).
    rewrite bind_unfold, Hacts.
    assert (∀ x, x ∈ sub :: rest →
              x < next_chan w1 ∧
              if decide (Forall (λ j, x ∉ gone j) (seq 0 (S i)))
              then x ∈ subs_of (bus w1) topic else x ∈ closed_chans w1) as Hinv1.
    { intros x Hx. destruct (Hinv x Hx) as [Hlt Hst]. split; [congruence|].
      rewrite seq_S. simpl.
      destruct (decide (Forall (λ j, x ∉ gone j) (seq 0 i))) as [Hall|Hnall].
      - destruct (decide (x ∈ gone i)) as [Hg|Hg].
        + rewrite decide_False.
          * apply Hcl1. by right.
          * rewrite Forall_app, Forall_singleton. tauto.
        + rewrite decide_True.
          * rewrite Hsubs1. by apply list_elem_of_filter.
          * by rewrite Forall_app, Forall_singleton.
      - rewrite decide_False.
        + apply Hcl1. by left.
        + rewrite Forall_app. tauto. }
    destruct (Hinv1 sub) as [Hlt Hst]; [left|].
    pose proof (chan_send_good (BySync i) sub data true w1 Hw1 Hlt) as Hg.
    unfold safe in Hg. rewrite bind_unfold. unfold chan_send in Hg |- *.
    rewrite Hrecv.
    destruct (decide (Forall (λ j, sub ∉ gone j) (seq 0 (S i)))) as [Hall|Hnall].
    + rewrite bool_decide_eq_true_2 by done.
      assert (sub ∉ closed_chans w1) as Hopen by by apply (wf_reg_open _ Hw1 topic).
      rewrite decide_False in Hg |- * by done.
      revert Hg. mred. intros [Hw2 _].
      set (w2 := mkWorld _ _ _ _ _) in *.
      destruct (IH (S i) errs w2 Hw2) as (w' & Hrun & Hw' & Hc' & Hs' & Hsubs' & Hcl').
      { intros x Hx. apply Hinv1. by right. }
      exists w'. split_and!; [|done|rewrite Hc'; exact Hc1| | |].
      * by rewrite Hrun.
      * rewrite Hs'. unfold w2. simpl. rewrite sync_sends_app, Hs1.
        by rewrite <-app_assoc.
      * rewrite Hsubs'. unfold w2. simpl. rewrite Hsubs1, list_filter_filter.
        apply list_filter_iff. intros x. rewrite Forall_cons. tauto.
      * intros x. rewrite Hcl'. unfold w2. simpl.
        rewrite Hcl1, Hsubs1, list_elem_of_filter, Forall_cons.
        destruct (decide (x ∈ gone i)); naive_solver.
    + rewrite bool_decide_eq_false_2 by done.
      rewrite decide_True in Hg |- * by done.
      revert Hg. mred. intros [Hw2 _].
      set (w2 := mkWorld _ _ _ _ _) in *.
      destruct (IH (S i)
                  (errs ++
                   [Errorf ("subscriber " +:+ pretty i +:+ " panic: " +:+
                            "send on closed channel")]) w2 Hw2)
        as (w' & Hrun & Hw' & Hc' & Hs' & Hsubs' & Hcl').
      { intros x Hx. apply Hinv1. by right. }
      exists w'. split_and!; [|done|rewrite Hc'; exact Hc1| | |].
      * rewrite Hrun, <-app_assoc. reflexivity.
      * rewrite Hs'. unfold w2. simpl. rewrite sync_sends_app, Hs1.
        by rewrite <-app_assoc.
      * rewrite Hsubs'. unfold w2. simpl. rewrite Hsubs1, list_filter_filter.
        apply list_filter_iff. intros x. rewrite Forall_cons. tauto.
      * intros x. rewrite Hcl'. unfold w2. simpl.
        rewrite Hcl1, Hsubs1, list_elem_of_filter, Forall_cons.
        destruct (decide (x ∈ gone i)); naive_solver.
Qed.

Lemma PublishSync_unsubscribes topic data sched gone w :
  wf w →
  closed (bus w) = false →
  (∀ j, before_send (sched j) = ActUnsubscribe topic <$> gone j) →
  (∀ j, receives (sched j) = true) →
  ∃ w',
    PublishSync topic data sched w =
      Ret (aggregate_error
             (failures_of 0 (outcomes_of gone 0 (subs_of (bus w) topic)))) w' ∧
    sync_sends (trace w') =
      sync_sends (trace w) ++
      sends_of data 0 (subs_of (bus w) topic)
        (outcomes_of gone 0 (subs_of (bus w) topic)) ∧
    subs_of (bus w') topic =
      filter (λ x, Forall (λ j, x ∉ gone j)
                     (seq 0 (length (subs_of (bus w) topic))))
        (subs_of (bus w) topic) ∧
    (∀ x, x ∈ closed_chans w' ↔
          x ∈ closed_chans w ∨
          (x ∈ subs_of (bus w) topic ∧
           ¬ Forall (λ j, x ∉ gone j)
               (seq 0 (length (subs_of (bus w) topic))))) ∧
    PublishSync_loop data sched 0 (subs_of (bus w) topic) [] w =
      Ret (subscriber_error <$>
           failures_of 0 (outcomes_of gone 0 (subs_of (bus w) topic))) w'.
Proof.
  intros Hw Hc Hsched Hrecv.
  destruct (PublishSync_loop_unsubscribes topic data sched gone 0
              (subs_of (bus w) topic) [] w Hsched Hrecv Hw)
    as (w' & Hrun & _ & _ & Htr & Hsubs & Hcl).
  { intros sub Hsub. split; [by apply (wf_reg_alloc _ Hw topic)|].
    by rewrite decide_True by constructor. }
  exists w'. split_and!; [|done..].
  unfold PublishSync. rewrite bind_unfold. simpl. rewrite Hc, bind_unfold.
  unfold slices_Clone. rewrite Hrun. simpl.
  destruct (failures_of 0 (outcomes_of gone 0 (subs_of (bus w) topic)));
    [done|]. simpl. by rewrite length_fmap.
Qed.

Lemma outcomes_of_length gone i (subs : list chan) :
  length (outcomes_of gone i subs) = length subs.
Proof.
  revert i. induction subs as [|sub subs IH]; intros i; [done|].
  simpl. by rewrite IH.
Qed.

Lemma outcomes_of_lookup gone i (subs : list chan) k sub :
  subs !! k = Some sub →
  outcomes_of gone i subs !! k =
    Some (bool_decide (Forall (λ j, sub ∉ gone j) (seq 0 (S (i + k))))).
Proof.
  revert i k. induction subs as [|x subs IH]; intros i k Hk; [done|].
  destruct k as [|k]; simpl in *.
  - injection Hk as ->. by rewrite Nat.add_0_r.
  - rewrite (IH (S i) k Hk). by replace (S i + k) with (i + S k) by lia.
Qed.

Lemma gone_by_spec (gone : nat → list chan) n sub :
  ¬ Forall (λ j, sub ∉ gone j) (seq 0 n) ↔ ∃ j, j < n ∧ sub ∈ gone j.
Proof.
  rewrite Forall_seq. split.
  - intros Hn. induction n as [|n IH].
    + destruct Hn. intros j ?. lia.
    + destruct (decide (sub ∈ gone n)) as [?|Hg]; [exists n; split; [lia|done]|].
      destruct IH as (j & Hj & Hin).
      * intros Hall. apply Hn. intros j Hj.
        destruct (decide (j = n)) as [->|]; [done|]. apply Hall. lia.
      * exists j. split; [lia|done].
  - intros (j & Hj & Hin) Hall. apply (Hall j); [lia|done].
Qed.

(** * The claims *)

(** C9: on a closed bus [Publish(topic, data)] returns at once, whatever the
    topic and the payload: it does not panic, and it leaves the world as it
    was, so the bus is unchanged, no delivery goroutine was started
    ([goroutines], and no [EvGo] in the trace), and [wg] was not incremented. *)
Theorem Publish_after_Close_noop w topic data sched :
  closed (bus w) = true →
  Publish topic data sched w = Ret tt w.
Proof.
  intros Hc. unfold Publish. rewrite bind_unfold. simpl. by rewrite Hc.
Qed.

(** C10: on a bus that is not closed, [PublishSync] on a topic without
    subscribers (the key is missing, or it maps to the empty sequence) returns
    the nil error and leaves the world as it was: no send was attempted. *)
Theorem PublishSync_no_subscribers_ok w topic data sched :
  closed (bus w) = false →
  subscribers (bus w) !! topic = None ∨ subscribers (bus w) !! topic = Some [] →
  PublishSync topic data sched w = Ret None w.
Proof.
  intros Hc Hsubs.
  assert (subs_of (bus w) topic = []) as Hnil.
  { destruct Hsubs; [by apply subs_of_None|by apply subs_of_lookup]. }
  unfold PublishSync. rewrite bind_unfold. simpl. rewrite Hc.
  unfold slices_Clone. by rewrite Hnil.
Qed.

(** C3: [PublishSync] returns [ErrBusClosed] exactly when the bus is closed at
    the call; on a closed bus it returns at once with the world as it was (no
    send, no change of the bus), whatever the other goroutines would do. *)
Theorem PublishSync_ErrBusClosed_iff_closed w topic data sched :
  (closed (bus w) = true →
   PublishSync topic data sched w = Ret (Some ErrBusClosed) w) ∧
  (∀ r w', PublishSync topic data sched w = Ret r w' →
           (r = Some ErrBusClosed ↔ closed (bus w) = true)).
Proof.
  split; [apply PublishSync_closed|].
  intros r w' Hrun. destruct (closed (bus w)) eqn:Hc.
  - rewrite PublishSync_closed in Hrun by done. by injection Hrun as <- <-.
  - apply PublishSync_open in Hrun as (oks & _ & _ & _ & ->); [|done].
    split; [|done]. by destruct (failures_of 0 oks).
Qed.

(** C2: [PublishSync] on a bus that is not closed.  When the call returns,
    it has attempted one send per subscriber of its snapshot, in the order
    of the snapshot, whatever the outcome of the sends before ([oks]: which
    sends were received); its loop has recorded one error per failed send,
    which names the position of the subscriber; the result is nil when no
    send failed, and otherwise one error whose message gives the number of
    failures and the message of the first one.

    And the call does return, past every failed send.  In a reachable
    world let other goroutines unsubscribe any channels of the topic
    while the sends wait ([gone j] while the [j]-th send waits), and let
    the subscribers that are left take the value.  Then [PublishSync]
    returns; it has made the send of every position of the snapshot; the
    send of position [i] has failed exactly when its subscriber was
    unsubscribed by then; its loop has recorded one error for each of the
    failed sends, with its position; and the result counts all the failed
    sends and names the first of them. *)
Theorem PublishSync_aggregates_failures w topic data sched :
  closed (bus w) = false →
  (∀ r w',
     PublishSync topic data sched w = Ret r w' →
     ∃ oks : list bool,
       length oks = length (subs_of (bus w) topic) ∧
       sync_sends (trace w') =
         sync_sends (trace w) ++ sends_of data 0 (subs_of (bus w) topic) oks ∧
       PublishSync_loop data sched 0 (subs_of (bus w) topic) [] w =
         Ret (subscriber_error <$> failures_of 0 oks) w' ∧
       (∀ i, i ∈ failures_of 0 oks ↔ oks !! i = Some false) ∧
       r = aggregate_error (failures_of 0 oks) ∧
       (r = None ↔ Forall (λ ok, ok = true) oks)) ∧
  (reachable w →
   ∀ gone : nat → list chan,
     (∀ j, before_send (sched j) = ActUnsubscribe topic <$> gone j) →
     (∀ j, receives (sched j) = true) →
     ∃ w',
       PublishSync topic data sched w =
         Ret (aggregate_error
                (failures_of 0 (outcomes_of gone 0 (subs_of (bus w) topic))))
           w' ∧
       sync_sends (trace w') =
         sync_sends (trace w) ++
         sends_of data 0 (subs_of (bus w) topic)
           (outcomes_of gone 0 (subs_of (bus w) topic)) ∧
       PublishSync_loop data sched 0 (subs_of (bus w) topic) [] w =
         Ret (subscriber_error <$>
              failures_of 0 (outcomes_of gone 0 (subs_of (bus w) topic))) w' ∧
       length (outcomes_of gone 0 (subs_of (bus w) topic)) =
         length (subs_of (bus w) topic) ∧
       ∀ i sub,
         subs_of (bus w) topic !! i = Some sub →
         (i ∈ failures_of 0 (outcomes_of gone 0 (subs_of (bus w) topic)) ↔
          ∃ j, j ≤ i ∧ sub ∈ gone j)).
Proof.
  intros Hc. split.
  - intros r w' Hrun.
    apply PublishSync_open in Hrun as (oks & Hlen & Hloop & Htr & ->); [|done].
    exists oks. split_and!; try done.
    + intros i. rewrite elem_of_failures_of. naive_solver.
    + rewrite <-(failures_of_nil oks 0). by destruct (failures_of 0 oks).
  - intros Hw%reachable_wf gone Hsched Hrecv.
    destruct (PublishSync_unsubscribes topic data sched gone w Hw Hc Hsched Hrecv)
      as (w' & Hrun & Htr & _ & _ & Hloop).
    exists w'. split_and!; [done|done|done|apply outcomes_of_length|].
    intros i sub Hi. rewrite elem_of_failures_of. split.
    + intros (k & Hik & Hk). simpl in Hik. subst k.
      rewrite (outcomes_of_lookup gone 0 _ i sub Hi) in Hk.
      injection Hk as Hk. apply bool_decide_eq_false_1 in Hk.
      apply (proj1 (gone_by_spec gone (S i) sub)) in Hk as (j & Hj & Hin).
      exists j. split; [lia|done].
    + intros (j & Hj & Hin). exists i. split; [done|].
      rewrite (outcomes_of_lookup gone 0 _ i sub Hi). f_equal.
      apply bool_decide_eq_false_2. apply gone_by_spec. exists j.
      split; [simpl; lia|done].
Qed.


(** C7: [Unsubscribe(topic, c)] returns with the world as it was when [c] is
    not in the sequence of [topic] (another topic's channel, one removed
    before, one the bus never made); and in a reachable world a second
    [Unsubscribe] with the same arguments returns with the world the first
    one left. *)
Theorem Unsubscribe_idempotent w topic c :
  (c ∉ subs_of (bus w) topic → Unsubscribe topic c w = Ret tt w) ∧
  (reachable w →
   ∃ w1, Unsubscribe topic c w = Ret tt w1 ∧
         Unsubscribe topic c w1 = Ret tt w1).
Proof.
  split; [apply Unsubscribe_miss|].
  intros Hw%reachable_wf.
  destruct (decide (c ∈ subs_of (bus w) topic)) as [Hin|Hnin]; last first.
  { exists w. by rewrite Unsubscribe_miss. }
  destruct (list_elem_of_split _ _ Hin) as (l1 & l2 & Hs).
  rewrite (Unsubscribe_wf_hit topic c l1 l2) by done.
  eexists. split; [done|]. apply Unsubscribe_miss. simpl.
  rewrite subs_of_insert, decide_True by done.
  pose proof (sorted_lt_NoDup _ (wf_reg_sorted _ Hw topic)) as Hnd.
  rewrite Hs in Hnd. apply NoDup_app in Hnd as (_ & Hd & Hnd).
  apply NoDup_cons in Hnd as [Hc2 _].
  intros [H1|H2]%elem_of_app; [|done]. apply (Hd _ H1). by left.
Qed.

(** C8: in a reachable world the sequence of a topic lists its channels in
    the order [Subscribe] made them (channel identities grow with every
    [make]); [Subscribe] on a bus that is not closed puts the new channel at
    the end of the sequence of its topic and leaves the other topics alone;
    [Unsubscribe] leaves exactly the channels other than the given one, in
    their order; and the sends of one [PublishSync] go to the subscribers of
    the snapshot in the order of the sequence. *)
Theorem registration_order_kept w topic :
  reachable w →
  StronglySorted lt (subs_of (bus w) topic) ∧
  (closed (bus w) = false →
   ∃ w', Subscribe topic w = Ret (next_chan w) w' ∧
         ∀ t, subs_of (bus w') t =
              if decide (topic = t)
              then subs_of (bus w) topic ++ [next_chan w]
              else subs_of (bus w) t) ∧
  (∀ c, ∃ w', Unsubscribe topic c w = Ret tt w' ∧
              ∀ t, subs_of (bus w') t =
                   if decide (topic = t)
                   then filter (λ x, x ≠ c) (subs_of (bus w) topic)
                   else subs_of (bus w) t) ∧
  (∀ data sched r w',
     closed (bus w) = false →
     PublishSync topic data sched w = Ret r w' →
     ∃ oks, length oks = length (subs_of (bus w) topic) ∧
            sync_sends (trace w') =
              sync_sends (trace w) ++
              sends_of data 0 (subs_of (bus w) topic) oks).
Proof.
  intros Hw%reachable_wf. split_and!.
  - apply (wf_reg_sorted _ Hw).
  - intros Hc. rewrite Subscribe_open by done. eexists. split; [done|].
    intros t. simpl. apply subs_of_insert.
  - intros c.
    destruct (decide (c ∈ subs_of (bus w) topic)) as [Hin|Hnin]; last first.
    { exists w. rewrite Unsubscribe_miss by done. split; [done|].
      intros t. case_decide as Ht; [|done]. subst t.
      by rewrite filter_ne_notin. }
    destruct (list_elem_of_split _ _ Hin) as (l1 & l2 & Hs).
    rewrite (Unsubscribe_wf_hit topic c l1 l2) by done.
    eexists. split; [done|]. intros t. simpl. rewrite subs_of_insert.
    case_decide; [|done]. rewrite Hs.
    pose proof (sorted_lt_NoDup _ (wf_reg_sorted _ Hw topic)) as Hnd.
    rewrite Hs in Hnd. apply NoDup_app in Hnd as (_ & Hd & Hnd).
    apply NoDup_cons in Hnd as [Hc2 _].
    rewrite filter_ne_remove; [done| |done].
    intros H1. apply (Hd _ H1). by left.
  - intros data sched r w' Hc Hrun.
    apply PublishSync_open in Hrun as (oks & Hlen & _ & Htr & _); [|done].
    by exists oks.
Qed.

(** C1: let [Subscribe(T)] return in a reachable world, let the program go
    on in any way, and let [closed] still be unset at the end, that is, no
    [Close()] has been called ([Close] sets [closed] in its first critical
    section, [Close_phase1_sets_closed], and nothing unsets it,
    [ev_closed]).  Then [T] is in [Topics()]; and when all the
    subscribers [T] has then are removed by [Unsubscribe], in any order, [T]
    is still in [Topics()] and [SubscriberCount(T)] is 0. *)
Theorem topic_persists_until_Close w T ch w1 steps w2 :
  reachable w →
  Subscribe T w = Ret ch w1 →
  run_steps steps w1 = Ret tt w2 →
  closed (bus w2) = false →
  T ∈ Topics (bus w2) ∧
  ∀ order,
    order ≡ₚ subs_of (bus w2) T →
    ∃ w3, run_actions (ActUnsubscribe T <$> order) w2 = Ret tt w3 ∧
          closed (bus w3) = false ∧
          T ∈ Topics (bus w3) ∧
          SubscriberCount T (bus w3) = 0.
Proof.
  intros Hw%reachable_wf Hsub Hrun Hc2.
  pose proof (Subscribe_good T w Hw) as Hg. unfold safe in Hg.
  rewrite Hsub in Hg. destruct Hg as [Hw1 Hev1].
  destruct (run_steps_wf_evolves _ _ _ Hw1 Hrun) as [Hw2 Hev2].
  assert (closed (bus w1) = false) as Hc1.
  { destruct (closed (bus w1)) eqn:E; [|done].
    by rewrite (ev_closed _ _ Hev2) in Hc2. }
  assert (closed (bus w) = false) as Hc.
  { destruct (closed (bus w)) eqn:E; [|done].
    by rewrite (ev_closed _ _ Hev1) in Hc1. }
  assert (is_Some (subscribers (bus w2) !! T)) as Hsome.
  { apply (ev_topics _ _ Hev2); [done|].
    rewrite Subscribe_open in Hsub by done. injection Hsub as _ <-. simpl.
    by rewrite lookup_insert_eq. }
  split; [by apply elem_of_Topics|].
  intros order Hp.
  destruct (Unsubscribe_all T order w2 Hw2 Hp Hsome)
    as (w3 & Hrun3 & _ & Hc3 & Hsome3 & Hnil).
  exists w3. split_and!; [done|congruence|by apply elem_of_Topics|].
  unfold SubscriberCount. by rewrite Hnil.
Qed.



(** C5: on a reachable closed bus, [Subscribe(topic)] returns a channel that
    did not exist before (it is not in the registry, is not [quitCh], was not
    closed, and nothing was received on it) and that is closed at the return;
    the bus, and so the registry, is as it was.  Afterwards the channel stays
    closed and nothing is ever received on it; and from a closed bus on, the
    registry never holds a channel it did not hold before. *)
Theorem Subscribe_after_Close_terminated w topic :
  reachable w →
  closed (bus w) = true →
  ∃ w',
    Subscribe topic w = Ret (next_chan w) w' ∧
    bus w' = bus w ∧
    (∀ t, next_chan w ∉ subs_of (bus w) t) ∧
    next_chan w ≠ quitCh (bus w) ∧
    (next_chan w ∉ closed_chans w) ∧
    next_chan w ∈ closed_chans w' ∧
    (∀ steps w'',
       run_steps steps w' = Ret tt w'' →
       next_chan w ∈ closed_chans w'' ∧
       received (next_chan w) (trace w'') = []) ∧
    (∀ steps w'',
       run_steps steps w = Ret tt w'' →
       closed (bus w'') = true ∧
       ∀ t c, c ∈ subs_of (bus w'') t → c ∈ subs_of (bus w) t).
Proof.
  intros Hw%reachable_wf Hc.
  pose proof (Subscribe_good topic w Hw) as Hg. unfold safe in Hg.
  rewrite Subscribe_closed in Hg |- * by eauto using wf_next_open.
  set (w' := mkWorld _ _ _ _ _) in *. destruct Hg as [Hw' Hev].
  exists w'. split_and!; try done.
  - intros t. by apply wf_next_unreg.
  - pose proof (wf_quit_alloc _ Hw). lia.
  - by apply wf_next_open.
  - unfold w'. simpl. set_solver.
  - intros steps w'' Hrun.
    destruct (run_steps_wf_evolves _ _ _ Hw' Hrun) as [_ Hev'].
    assert (next_chan w ∈ closed_chans w') as Hin by (unfold w'; simpl; set_solver).
    split; [by apply (ev_chans _ _ Hev')|].
    rewrite (ev_received _ _ Hev') by done.
    unfold w'. simpl. trace_simpl. by apply (wf_recv_alloc _ Hw).
  - intros steps w'' Hrun.
    destruct (run_steps_wf_evolves _ _ _ Hw Hrun) as [_ Hev'].
    split; [by apply (ev_closed _ _ Hev')|].
    intros t c. by apply (ev_reg_closed _ _ Hev').
Qed.

(** C6: [Close()] on a closed bus returns with the world as it was: it does
    not panic and changes nothing, whatever the other goroutines would do.
    In every reachable world [quitCh] is the channel [NewEventBus] made, and
    it has been closed once when [closed] is set and never otherwise.  And
    once a [Close()] has returned, [closed] is set for good, so every later
    [Close()] is such a call on a closed bus. *)
Theorem Close_idempotent w :
  (∀ again, closed (bus w) = true → Close again w = Ret tt w) ∧
  (reachable w →
   quitCh (bus w) = quitCh (bus (NewEventBus (any:=any))) ∧
   closes_of (quitCh (bus w)) (trace w) = if closed (bus w) then 1 else 0) ∧
  (reachable w →
   ∀ during_wait w',
     Close during_wait w = Ret tt w' →
     closed (bus w') = true ∧
     ∀ steps w'', run_steps steps w' = Ret tt w'' → closed (bus w'') = true).
Proof.
  split_and!.
  - intros again Hc. unfold Close. rewrite bind_unfold.
    by rewrite Close_phase1_closed.
  - intros [steps Hrun].
    destruct (run_steps_wf_evolves _ _ _ NewEventBus_wf Hrun) as [Hw Hev].
    split; [by apply (ev_quit _ _ Hev)|].
    rewrite (wf_close_once _ Hw). destruct (closed (bus w)) eqn:Hc.
    + by rewrite decide_True by by apply (wf_quit_closed _ Hw).
    + rewrite decide_False; [done|]. by apply wf_quit_open.
  - intros Hw%reachable_wf during_wait w' Hrun.
    pose proof (Close_good during_wait w Hw) as Hg. unfold safe in Hg.
    rewrite Hrun in Hg. destruct Hg as ([Hw' Hev] & Hc' & _).
    split; [done|]. intros steps w'' Hrun'.
    destruct (run_steps_wf_evolves _ _ _ Hw' Hrun') as [_ Hev'].
    by apply (ev_closed _ _ Hev').
Qed.


(** * Further properties of the bus *)

(** ** Subscribing and unsubscribing *)

(** X1: on a reachable bus that is not closed, [Subscribe(topic)] returns a
    channel that did not exist before: it is in no sequence of the registry,
    it is not [quitCh], it is open at the return and nothing has been
    received on it.  The call closes no channel; [SubscriberCount(topic)]
    goes up by one and the count of every other topic stays; and [Topics()]
    lists [topic] besides the topics it listed before. *)
Theorem Subscribe_registers w topic :
  reachable w →
  closed (bus w) = false →
  ∃ ch w',
    Subscribe topic w = Ret ch w' ∧
    (∀ t, ch ∉ subs_of (bus w) t) ∧
    ch ≠ quitCh (bus w) ∧
    (ch ∉ closed_chans w') ∧
    received ch (trace w') = [] ∧
    closed_chans w' = closed_chans w ∧
    SubscriberCount topic (bus w') = S (SubscriberCount topic (bus w)) ∧
    (∀ t, t ≠ topic → SubscriberCount t (bus w') = SubscriberCount t (bus w)) ∧
    (∀ t, t ∈ Topics (bus w') ↔ t = topic ∨ t ∈ Topics (bus w)).
Proof.
  intros Hw%reachable_wf Hc. rewrite Subscribe_open by done.
  eexists _, _. split; [done|]. simpl. split_and!.
  - intros t. by apply wf_next_unreg.
  - pose proof (wf_quit_alloc _ Hw). lia.
  - by apply wf_next_open.
  - trace_simpl. by apply (wf_recv_alloc _ Hw).
  - done.
  - unfold SubscriberCount. rewrite subs_of_insert, decide_True by done.
    rewrite length_app. simpl. lia.
  - intros t Ht. unfold SubscriberCount.
    by rewrite subs_of_insert, decide_False by done.
  - intros t. rewrite !elem_of_Topics. simpl. rewrite lookup_insert_is_Some.
    destruct (decide (topic = t)); naive_solver.
Qed.

(** X2: in a reachable world, [Unsubscribe(topic, c)] of a channel [c] that
    is in the sequence of [topic] returns; [c] was open and is the one
    channel the call closes; [c] is no longer in the sequence,
    [SubscriberCount(topic)] goes down by one and the count of every other
    topic stays.  Whatever the program does afterwards, [c] stays closed, is
    never put back into the registry, and nothing more is received on it. *)
Theorem Unsubscribe_closes w topic c :
  reachable w →
  c ∈ subs_of (bus w) topic →
  ∃ w',
    Unsubscribe topic c w = Ret tt w' ∧
    (c ∉ closed_chans w) ∧
    closed_chans w' = {[c]} ∪ closed_chans w ∧
    (c ∉ subs_of (bus w') topic) ∧
    S (SubscriberCount topic (bus w')) = SubscriberCount topic (bus w) ∧
    (∀ t, t ≠ topic → SubscriberCount t (bus w') = SubscriberCount t (bus w)) ∧
    ∀ steps w'',
      run_steps steps w' = Ret tt w'' →
      c ∈ closed_chans w'' ∧
      (∀ t, c ∉ subs_of (bus w'') t) ∧
      received c (trace w'') = received c (trace w).
Proof.
  intros Hw%reachable_wf Hin.
  destruct (list_elem_of_split _ _ Hin) as (l1 & l2 & Hs).
  pose proof (Unsubscribe_good topic c w Hw) as Hg. unfold safe in Hg.
  rewrite (Unsubscribe_wf_hit topic c l1 l2) in Hg |- * by done.
  set (w' := mkWorld _ _ _ _ _) in *. destruct Hg as [Hw' Hev].
  pose proof (sorted_lt_NoDup _ (wf_reg_sorted _ Hw topic)) as Hnd.
  rewrite Hs in Hnd. apply NoDup_app in Hnd as (_ & Hd & Hnd).
  apply NoDup_cons in Hnd as [Hc2 _].
  assert (c ∈ closed_chans w') as Hcl by (unfold w'; simpl; set_solver).
  exists w'. split_and!; [done|by apply (wf_reg_open _ Hw topic)|done|..].
  - unfold w'. simpl. rewrite subs_of_insert, decide_True by done.
    intros [H1|H2]%elem_of_app; [|done]. apply (Hd _ H1). by left.
  - unfold SubscriberCount, w'. simpl.
    rewrite subs_of_insert, decide_True by done.
    rewrite Hs, !length_app. simpl. lia.
  - intros t Ht. unfold SubscriberCount, w'. simpl.
    by rewrite subs_of_insert, decide_False by done.
  - intros steps w'' Hrun.
    destruct (run_steps_wf_evolves _ _ _ Hw' Hrun) as [Hw'' Hev'].
    assert (c ∈ closed_chans w'') as Hcl' by by apply (ev_chans _ _ Hev').
    split_and!; [done| |].
    + intros t Ht. by apply (wf_reg_open _ Hw'' t c).
    + rewrite (ev_received _ _ Hev') by done. unfold w'. simpl. by trace_simpl.
Qed.

(** X3: on a reachable bus that is not closed, [Subscribe(topic)] followed by
    [Unsubscribe] of the channel it returned gives back the sequences the
    registry had, so every [SubscriberCount] is what it was.  The one trace
    the pair leaves in the bus is the key: [topic] is a key of the registry
    afterwards, with the sequence it had (empty when it was no key); when
    [topic] was a key already, the bus is as it was.  The channel is
    closed. *)
Theorem Subscribe_Unsubscribe_round_trip w topic :
  reachable w →
  closed (bus w) = false →
  ∃ ch w1 w2,
    Subscribe topic w = Ret ch w1 ∧
    Unsubscribe topic ch w1 = Ret tt w2 ∧
    subscribers (bus w2) =
      <[topic := subs_of (bus w) topic]> (subscribers (bus w)) ∧
    (∀ t, subs_of (bus w2) t = subs_of (bus w) t) ∧
    (∀ t, SubscriberCount t (bus w2) = SubscriberCount t (bus w)) ∧
    (is_Some (subscribers (bus w) !! topic) → bus w2 = bus w) ∧
    closed_chans w2 = {[ch]} ∪ closed_chans w.
Proof.
  intros Hw%reachable_wf Hc. rewrite Subscribe_open by done.
  set (w1 := mkWorld _ _ _ _ _).
  assert (Unsubscribe topic (next_chan w) w1 =
            Ret tt
              (mkWorld
                 (set_subscribers
                    (<[topic := subs_of (bus w) topic]> (subscribers (bus w)))
                    (bus w))
                 (S (next_chan w)) ({[next_chan w]} ∪ closed_chans w)
                 (goroutines w)
                 ((trace w ++ [EvMake (next_chan w)]) ++ [EvClose (next_chan w)])))
    as Hun.
  { rewrite (Unsubscribe_hit topic (next_chan w) (subs_of (bus w) topic) []).
    - unfold close_chan, w1. simpl.
      rewrite decide_False by by apply wf_next_open.
      by rewrite insert_insert_eq, app_nil_r.
    - unfold w1. simpl. by rewrite subs_of_insert, decide_True by done.
    - by apply wf_next_unreg. }
  assert (∀ t,
    subs_of (set_subscribers
               (<[topic := subs_of (bus w) topic]> (subscribers (bus w)))
               (bus w)) t = subs_of (bus w) t) as Hsame.
  { intros t. rewrite subs_of_insert. by case_decide; subst. }
  eexists _, _, _. split; [done|]. split; [exact Hun|]. simpl.
  split_and!; [done|done| |  |done].
  - intros t. unfold SubscriberCount. by rewrite Hsame.
  - intros [l Hl]. rewrite (subs_of_lookup _ _ _ Hl), insert_id by done.
    by destruct (bus w).
Qed.

(** ** Invariants of the registry and of the channels *)

(** X4: in a reachable world every channel of the registry is open and is
    not [quitCh]; it is under one topic only and occurs once in the sequence
    of that topic; and that topic is in [Topics()]. *)
Theorem registered_channels_open_and_unique w t c :
  reachable w →
  c ∈ subs_of (bus w) t →
  (c ∉ closed_chans w) ∧
  c ≠ quitCh (bus w) ∧
  (∀ t', c ∈ subs_of (bus w) t' → t' = t) ∧
  NoDup (subs_of (bus w) t) ∧
  t ∈ Topics (bus w).
Proof.
  intros Hw%reachable_wf Hin. split_and!.
  - by apply (wf_reg_open _ Hw t).
  - intros ->. by apply (wf_quit_reg _ Hw t).
  - intros t' Hin'. by apply (wf_reg_disj _ Hw t' t c).
  - apply sorted_lt_NoDup, (wf_reg_sorted _ Hw).
  - apply elem_of_Topics.
    destruct (subs_of_elem_lookup _ _ _ Hin) as (l & Hl & _). by eexists.
Qed.

(** X5: in a reachable world none of the [close] calls of the bus meets a
    closed channel, and [slices.Delete] gets no index out of range:
    [Subscribe] and [Unsubscribe] return for every argument (on a closed
    bus, [Subscribe] closes the channel it has just made), the first
    critical section of [Close] returns, and on a closed bus the second
    critical section of [Close] returns. *)
Theorem close_calls_meet_open_channels w :
  reachable w →
  (∀ topic, ∃ ch w', Subscribe topic w = Ret ch w') ∧
  (∀ topic c, ∃ w', Unsubscribe topic c w = Ret tt w') ∧
  (∃ already w', Close_phase1 w = Ret already w') ∧
  (closed (bus w) = true → ∃ w', Close_phase3 w = Ret tt w').
Proof.
  intros Hw%reachable_wf. split_and!.
  - intros topic. destruct (closed (bus w)) eqn:Hc.
    + rewrite Subscribe_closed by eauto using wf_next_open. by eexists _, _.
    + rewrite Subscribe_open by done. by eexists _, _.
  - intros topic c.
    destruct (Unsubscribe_effect topic c w Hw) as (w' & Hrun & _). by exists w'.
  - destruct (closed (bus w)) eqn:Hc.
    + rewrite Close_phase1_closed by done. by eexists _, _.
    + rewrite Close_phase1_open by eauto using wf_quit_open. by eexists _, _.
  - intros Hc.
    destruct (returns_Ret _ _ _ (Close_phase3_returns w Hw Hc))
      as ([] & w' & Hrun & _).
    by exists w'.
Qed.

(** X6: in a reachable world the counter of the [WaitGroup] is the number of
    delivery goroutines that run, a delivery counting from its
    [wg.Add(1)] to its deferred [wg.Done()]; the channel of each of them is
    one that [make] has handed out. *)
Theorem wg_counts_deliveries w :
  reachable w →
  wg (bus w) = length (goroutines w) ∧
  ∀ c data, (c, data) ∈ goroutines w → c < next_chan w.
Proof.
  intros Hw%reachable_wf. split; [apply (wf_wg _ Hw)|apply (wf_go_alloc _ Hw)].
Qed.

(** ** Introspection *)

(** X8: [Topics()] lists every key of the registry once, in some order, and
    nothing else; a topic whose [SubscriberCount] is above 0 is one of them
    (a topic that is no key has count 0). *)
Theorem Topics_lists_each_key_once b :
  NoDup (Topics b) ∧
  length (Topics b) = size (subscribers b) ∧
  (∀ t, t ∈ Topics b ↔ is_Some (subscribers b !! t)) ∧
  (∀ t, t ∉ Topics b → SubscriberCount t b = 0).
Proof.
  split_and!.
  - unfold Topics. rewrite range_perm. apply NoDup_fst_map_to_list.
  - unfold Topics. by rewrite range_perm, length_fmap, length_map_to_list.
  - apply elem_of_Topics.
  - intros t Ht. unfold SubscriberCount. rewrite subs_of_None; [done|].
    apply eq_None_not_Some. by rewrite <-elem_of_Topics.
Qed.


(** ** [Publish] and its delivery goroutines *)

Lemma world_eta w :
  mkWorld (bus w) (next_chan w) (closed_chans w) (goroutines w) (trace w) = w.
Proof. by destruct w. Qed.

Lemma Publish_loop_alone data i rest w :
  Publish_loop data (λ _, []) i rest w =
    Ret tt
      (mkWorld (set_wg (wg (bus w) + length rest) (bus w)) (next_chan w)
         (closed_chans w) (goroutines w ++ ((λ c, (c, data)) <$> rest))
         (trace w ++ ((λ c, EvGo c data) <$> rest))).
Proof.
  revert i w. induction rest as [|sub rest IH]; intros i w.
  - simpl. by rewrite Nat.add_0_r, set_wg_same, !app_nil_r, world_eta.
  - cbn [Publish_loop]. rewrite !bind_unfold. cbn [run_actions for_each].
    unfold wg_Add, go. mred. rewrite IH. simpl.
    rewrite <-!app_assoc. simpl.
    by replace (S (wg (bus w) + length rest)) with (wg (bus w) + S (length rest))
      by lia.
Qed.

Lemma received_fmap_go c data (subs : list chan) :
  received c ((λ c', EvGo c' data) <$> subs) = [].
Proof. induction subs as [|c' subs IH]; [done|]. by rewrite fmap_cons. Qed.

Lemma received_send_same c s data :
  received c [EvSend s c data true] = [EvSend s c data true].
Proof.
  unfold received. rewrite filter_cons. simpl.
  by rewrite bool_decide_eq_true_2.
Qed.

Lemma received_fmap_send c data (subs : list chan) :
  NoDup subs →
  received c ((λ c', EvSend ByTask c' data true) <$> subs) =
    if decide (c ∈ subs) then [EvSend ByTask c data true] else [].
Proof.
  induction subs as [|c' subs IH]; intros Hnd.
  { rewrite decide_False; [done|]. apply not_elem_of_nil. }
  apply NoDup_cons in Hnd as [Hc' Hnd]. specialize (IH Hnd).
  rewrite fmap_cons. change (?x :: ?l) with ([x] ++ l) at 1.
  rewrite received_app, IH.
  destruct (decide (c' = c)) as [->|Hne].
  - rewrite received_send_same, (decide_False (P:=c ∈ subs)) by done.
    by rewrite decide_True by left.
  - rewrite received_send_other by done. simpl.
    destruct (decide (c ∈ subs)).
    + by rewrite decide_True by by right.
    + rewrite decide_False; [done|]. by intros [?|?]%elem_of_cons.
Qed.

Lemma run_goroutine_send w i ch data n :
  goroutines w !! i = Some (ch, data) →
  wg (bus w) = S n →
  run_goroutine i CaseSend w =
    Ret tt
      (mkWorld (set_wg n (bus w)) (next_chan w) (closed_chans w)
         (delete i (goroutines w))
         (trace w ++
          if decide (ch ∈ closed_chans w)
          then [EvSend ByTask ch data false;
                EvLog "eventbus: recovered from subscriber panic: send on closed channel"]
          else [EvSend ByTask ch data true])).
Proof.
  intros Hi Hn. unfold run_goroutine. rewrite Hi.
  unfold chan_send, wg_Done, end_goroutine. mred.
  destruct (decide (ch ∈ closed_chans w)); simpl; rewrite Hn; simpl;
    by rewrite <-?app_assoc.
Qed.

Lemma deliver_all data (subs : list chan) gs w :
  goroutines w = gs ++ ((λ c, (c, data)) <$> subs) →
  wg (bus w) = length (goroutines w) →
  (∀ c, c ∈ subs → c ∉ closed_chans w) →
  run_actions (replicate (length subs) (ActGoroutine (length gs) CaseSend)) w =
    Ret tt
      (mkWorld (set_wg (length gs) (bus w)) (next_chan w) (closed_chans w) gs
         (trace w ++ ((λ c, EvSend ByTask c data true) <$> subs))).
Proof.
  revert w. induction subs as [|c subs IH]; intros w Hgs Hwg Hopen.
  - simpl in *. rewrite app_nil_r in Hgs. rewrite Hgs in Hwg.
    by rewrite <-Hwg, set_wg_same, app_nil_r, <-Hgs, world_eta.
  - simpl replicate. rewrite run_actions_cons, bind_unfold. simpl run_action.
    rewrite fmap_cons in Hgs.
    rewrite (run_goroutine_send w (length gs) c data (length gs + length subs)).
    + rewrite decide_False by (apply Hopen; left).
      rewrite IH; simpl.
      * rewrite <-app_assoc. done.
      * rewrite Hgs. apply delete_middle.
      * rewrite Hgs, delete_middle, length_app, length_fmap. done.
      * intros c' Hc'. apply Hopen. by right.
    + rewrite Hgs. apply list_lookup_middle. done.
    + rewrite Hwg, Hgs, length_app. simpl. rewrite length_fmap. lia.
Qed.

(** X9: on a bus that is not closed, [Publish(topic, data)] that no other
    goroutine interleaves with returns without waiting for any subscriber:
    it starts one delivery goroutine per subscriber of the topic, in the
    order of the sequence, and adds their number to the counter of the
    [WaitGroup]; the registry, the channels and what the subscribers have
    received are as they were. *)
Theorem Publish_starts_deliveries w topic data :
  closed (bus w) = false →
  Publish topic data (λ _, []) w =
    Ret tt
      (mkWorld (set_wg (wg (bus w) + length (subs_of (bus w) topic)) (bus w))
         (next_chan w) (closed_chans w)
         (goroutines w ++ ((λ c, (c, data)) <$> subs_of (bus w) topic))
         (trace w ++ ((λ c, EvGo c data) <$> subs_of (bus w) topic))).
Proof.
  intros Hc. unfold Publish. rewrite bind_unfold. simpl. rewrite Hc.
  apply Publish_loop_alone.
Qed.

(** X10: in a reachable world with the bus not closed, after
    [Publish(topic, data)] every subscriber of the topic that takes the
    value from its channel has received [data] once, and no other channel
    has received anything: when the delivery goroutines the call started
    all complete their send, the bus and the pool of goroutines are as
    before the call. *)
Theorem Publish_delivers w topic data :
  reachable w →
  closed (bus w) = false →
  ∃ w1 w2,
    Publish topic data (λ _, []) w = Ret tt w1 ∧
    (∀ c, received c (trace w1) = received c (trace w)) ∧
    run_actions
      (replicate (length (subs_of (bus w) topic))
         (ActGoroutine (length (goroutines w)) CaseSend)) w1 = Ret tt w2 ∧
    bus w2 = bus w ∧
    goroutines w2 = goroutines w ∧
    closed_chans w2 = closed_chans w ∧
    ∀ c, received c (trace w2) =
         received c (trace w) ++
         if decide (c ∈ subs_of (bus w) topic)
         then [EvSend ByTask c data true] else [].
Proof.
  intros Hw%reachable_wf Hc.
  assert (Publish topic data (λ _, []) w =
            Publish_loop data (λ _, []) 0 (subs_of (bus w) topic) w) as ->.
  { unfold Publish. rewrite bind_unfold. simpl. by rewrite Hc. }
  rewrite Publish_loop_alone. set (w1 := mkWorld _ _ _ _ _).
  eexists _, _. split; [done|]. split.
  { intros c. unfold w1. simpl. by rewrite received_app, received_fmap_go, app_nil_r. }
  rewrite (deliver_all data (subs_of (bus w) topic) (goroutines w) w1).
  - split; [done|]. simpl. split_and!; [|done|done|].
    + unfold set_wg. simpl. rewrite <-(wf_wg _ Hw). by destruct (bus w).
    + intros c. rewrite <-app_assoc, !received_app, received_fmap_go.
      simpl. f_equal. apply received_fmap_send, sorted_lt_NoDup, (wf_reg_sorted _ Hw).
  - done.
  - unfold w1. simpl. rewrite length_app, length_fmap. by rewrite (wf_wg _ Hw).
  - intros c Hin. by apply (wf_reg_open _ Hw topic).
Qed.

(** X11: in a reachable world with the bus not closed (no [Close()] has
    begun, so no [wg.Wait()] is pending), a delivery goroutine whose send
    ends, ends without a panic: when its channel is open the subscriber has
    received the value; when its channel has been closed meanwhile (by
    [Unsubscribe]) the panic of the send is recovered and logged.  Either
    way the deferred [wg.Done()] takes the counter down by one, and the
    registry and the channels are as they were. *)
Theorem delivery_ends_without_panic w i ch data :
  reachable w →
  closed (bus w) = false →
  goroutines w !! i = Some (ch, data) →
  ∃ w',
    run_goroutine i CaseSend w = Ret tt w' ∧
    S (wg (bus w')) = wg (bus w) ∧
    goroutines w' = delete i (goroutines w) ∧
    subscribers (bus w') = subscribers (bus w) ∧
    closed_chans w' = closed_chans w ∧
    trace w' =
      trace w ++
      if decide (ch ∈ closed_chans w)
      then [EvSend ByTask ch data false;
            EvLog "eventbus: recovered from subscriber panic: send on closed channel"]
      else [EvSend ByTask ch data true].
Proof.
  intros Hw%reachable_wf _ Hi.
  pose proof (lookup_lt_Some _ _ _ Hi) as Hlt.
  pose proof (wf_wg _ Hw) as Hwg.
  destruct (wg (bus w)) as [|n] eqn:Hn; [lia|].
  rewrite (run_goroutine_send w i ch data n) by done.
  eexists. split; [done|]. simpl. by split_and!.
Qed.

Lemma drain_all w :
  quitCh (bus w) ∈ closed_chans w →
  wg (bus w) = length (goroutines w) →
  run_actions (replicate (length (goroutines w)) (ActGoroutine 0 CaseQuit)) w =
    Ret tt
      (mkWorld (set_wg 0 (bus w)) (next_chan w) (closed_chans w) []
         (trace w ++ ((λ g, EvAbandon g.1 g.2) <$> goroutines w))).
Proof.
  remember (goroutines w) as gs eqn:Hgs. revert w Hgs.
  induction gs as [|[ch data] gs IH]; intros w Hgs Hq Hwg.
  - destruct w as [b n cl g tr]. simpl in *. subst g. simpl in Hwg.
    by rewrite <-Hwg, set_wg_same, app_nil_r.
  - simpl replicate. rewrite run_actions_cons, bind_unfold. simpl run_action.
    assert (run_goroutine 0 CaseQuit w =
              Ret tt (mkWorld (set_wg (length gs) (bus w)) (next_chan w)
                        (closed_chans w) gs (trace w ++ [EvAbandon ch data])))
      as ->.
    { unfold run_goroutine. rewrite <-Hgs. simpl.
      unfold wg_Done, end_goroutine. mred.
      rewrite decide_True by done. simpl. rewrite Hwg. simpl. by rewrite <-Hgs. }
    rewrite IH; simpl; [|done..]. by rewrite <-app_assoc.
Qed.

Lemma received_fmap_abandon c (gs : list (chan * any)) :
  received c ((λ g, EvAbandon g.1 g.2) <$> gs) = [].
Proof. induction gs as [|g gs IH]; [done|]. by rewrite fmap_cons. Qed.

(** X12: in a reachable world the [quitCh] case of the [select] of a delivery
    goroutine cannot be taken while the bus is not closed: a delivery ends
    only through its send.  Once the bus is closed, every delivery
    goroutine that still runs can end through the [quitCh] case without
    any subscriber taking a value: the pool empties, the counter of the
    [WaitGroup] gets to 0, nothing is received, and the registry and the
    channels are as they were. *)
Theorem quit_case_needs_Close w :
  reachable w →
  (closed (bus w) = false → ∀ i, run_goroutine i CaseQuit w = Block) ∧
  (closed (bus w) = true →
   ∃ w',
     run_actions
       (replicate (length (goroutines w)) (ActGoroutine 0 CaseQuit)) w =
       Ret tt w' ∧
     goroutines w' = [] ∧
     wg (bus w') = 0 ∧
     subscribers (bus w') = subscribers (bus w) ∧
     closed_chans w' = closed_chans w ∧
     ∀ c, received c (trace w') = received c (trace w)).
Proof.
  intros Hw%reachable_wf. split.
  - intros Hc i. unfold run_goroutine.
    destruct (goroutines w !! i) as [[ch data]|]; [|done]. mred.
    by rewrite decide_False by by apply wf_quit_open.
  - intros Hc. rewrite drain_all.
    + eexists. split; [done|]. simpl. split_and!; try done.
      intros c. by rewrite received_app, received_fmap_abandon, app_nil_r.
    + by apply (wf_quit_closed _ Hw).
    + apply (wf_wg _ Hw).
Qed.

(** ** [Close] waits *)



(** ** [PublishSync] without and with a concurrent [Unsubscribe] *)

Lemma PublishSync_loop_alone data sched i rest errs w :
  (∀ c, c ∈ rest → c ∉ closed_chans w) →
  (∀ j, i ≤ j < i + length rest →
        before_send (sched j) = [] ∧ receives (sched j) = true) →
  PublishSync_loop data sched i rest errs w =
    Ret errs
      (mkWorld (bus w) (next_chan w) (closed_chans w) (goroutines w)
         (trace w ++ sends_of data i rest (replicate (length rest) true))).
Proof.
  revert i errs w.
  induction rest as [|sub rest IH]; intros i errs w Hopen Hsched.
  - simpl. by rewrite app_nil_r, world_eta.
  - cbn [PublishSync_loop]. destruct (Hsched i) as [-> Hrecv]; [simpl; lia|].
    rewrite bind_unfold. simpl. rewrite bind_unfold. unfold chan_send.
    rewrite Hrecv, decide_False by (apply Hopen; left). mred.
    rewrite IH; simpl.
    + by rewrite <-app_assoc.
    + intros c Hc. apply Hopen. by right.
    + intros j Hj. apply Hsched. simpl. lia.
Qed.

Lemma PublishSync_loop_blocks data sched i rest errs w j :
  (∀ c, c ∈ rest → c ∉ closed_chans w) →
  (∀ k, before_send (sched k) = []) →
  i ≤ j < i + length rest →
  receives (sched j) = false →
  PublishSync_loop data sched i rest errs w = Block.
Proof.
  revert i errs w.
  induction rest as [|sub rest IH]; intros i errs w Hopen Hsched Hj Hrecv.
  - simpl in Hj. lia.
  - cbn [PublishSync_loop]. rewrite Hsched.
    rewrite bind_unfold. simpl. rewrite bind_unfold. unfold chan_send.
    rewrite decide_False by (apply Hopen; left).
    destruct (receives (sched i)) eqn:Hi; [|done]. mred.
    apply IH; [|done| |done].
    + intros c Hc. apply Hopen. by right.
    + simpl in Hj. destruct (decide (j = i)) as [->|]; [congruence|lia].
Qed.


Lemma received_sends_of_notin c data i (subs : list chan) (oks : list bool) :
  c ∉ subs → received c (sends_of data i subs oks) = [].
Proof.
  revert i oks. induction subs as [|sub subs IH]; intros i oks Hc; [done|].
  destruct oks as [|ok oks]; [done|]. simpl.
  change (?x :: ?l) with ([x] ++ l). rewrite received_app.
  rewrite received_send_other by set_solver. apply IH. set_solver.
Qed.

Lemma received_sends_of_in c data i k (subs : list chan) :
  NoDup subs →
  subs !! k = Some c →
  received c (sends_of data i subs (replicate (length subs) true)) =
    [EvSend (BySync (i + k)) c data true].
Proof.
  revert i k. induction subs as [|sub subs IH]; intros i k Hnd Hk; [done|].
  apply NoDup_cons in Hnd as [Hsub Hnd]. simpl.
  change (?x :: ?l) with ([x] ++ l) at 1. rewrite received_app.
  destruct k as [|k]; simpl in Hk.
  - injection Hk as ->. rewrite received_send_same.
    rewrite received_sends_of_notin by done. by rewrite Nat.add_0_r.
  - assert (sub ≠ c) as Hne.
    { intros ->. apply Hsub. by eapply list_elem_of_lookup_2. }
    rewrite received_send_other by done. rewrite (IH (S i) k) by done.
    simpl. by replace (S (i + k)) with (i + S k) by lia.
Qed.

(** X14: [PublishSync(topic, data)] on a reachable bus that is not closed,
    with no step of another goroutine during the call.  When every
    subscriber of the topic takes the value, the call returns the nil
    error, every subscriber has received [data] once (from the send of its
    position) and no other channel has received anything, and the bus, the
    channels and the goroutines are as they were.  When one subscriber
    never takes the value, the call does not return. *)
Theorem PublishSync_uninterrupted w topic data sched :
  reachable w →
  closed (bus w) = false →
  (∀ j, before_send (sched j) = []) →
  ((∀ j, j < length (subs_of (bus w) topic) → receives (sched j) = true) →
   ∃ w',
     PublishSync topic data sched w = Ret None w' ∧
     bus w' = bus w ∧
     closed_chans w' = closed_chans w ∧
     goroutines w' = goroutines w ∧
     (∀ i c, subs_of (bus w) topic !! i = Some c →
             received c (trace w') =
               received c (trace w) ++ [EvSend (BySync i) c data true]) ∧
     (∀ c, c ∉ subs_of (bus w) topic →
           received c (trace w') = received c (trace w))) ∧
  (∀ j, j < length (subs_of (bus w) topic) →
        receives (sched j) = false →
        PublishSync topic data sched w = Block).
Proof.
  intros Hw%reachable_wf Hc Hsched. split.
  - intros Hrecv. unfold PublishSync. rewrite bind_unfold. simpl. rewrite Hc.
    rewrite bind_unfold. unfold slices_Clone.
    rewrite PublishSync_loop_alone.
    + eexists. split; [done|]. simpl. split_and!; try done.
      * intros i c Hi. rewrite received_app. f_equal.
        rewrite (received_sends_of_in c data 0 i); [done| |done].
        apply sorted_lt_NoDup, (wf_reg_sorted _ Hw).
      * intros c Hnin.
        by rewrite received_app, received_sends_of_notin, app_nil_r.
    + apply (wf_reg_open _ Hw).
    + intros j Hj. split; [done|]. apply Hrecv. lia.
  - intros j Hj Hrecv. unfold PublishSync. rewrite bind_unfold. simpl.
    rewrite Hc, bind_unfold. unfold slices_Clone.
    rewrite (PublishSync_loop_blocks data sched 0 _ [] w j); [done| |done| |done].
    + apply (wf_reg_open _ Hw).
    + lia.
Qed.

Lemma outcomes_of_app gone i (l1 l2 : list chan) :
  outcomes_of gone i (l1 ++ l2) =
    outcomes_of gone i l1 ++ outcomes_of gone (i + length l1) l2.
Proof.
  revert i. induction l1 as [|sub l1 IH]; intros i; simpl.
  - by rewrite Nat.add_0_r.
  - rewrite IH. by replace (S i + length l1) with (i + S (length l1)) by lia.
Qed.

Lemma outcomes_of_true gone i (subs : list chan) :
  (∀ sub j, sub ∈ subs → sub ∉ gone j) →
  outcomes_of gone i subs = replicate (length subs) true.
Proof.
  revert i. induction subs as [|sub subs IH]; intros i Hg; [done|]. simpl.
  rewrite bool_decide_eq_true_2.
  - f_equal. apply IH. intros x j Hx. apply Hg. by right.
  - apply Forall_forall. intros j _. apply Hg. left.
Qed.

Lemma failures_of_app i (oks1 oks2 : list bool) :
  failures_of i (oks1 ++ oks2) =
    failures_of i oks1 ++ failures_of (i + length oks1) oks2.
Proof.
  revert i. induction oks1 as [|ok oks1 IH]; intros i; simpl.
  - by rewrite Nat.add_0_r.
  - rewrite IH, <-app_assoc.
    by replace (S i + length oks1) with (i + S (length oks1)) by lia.
Qed.

Lemma failures_of_true i n : failures_of i (replicate n true) = [].
Proof. revert i. induction n as [|n IH]; intros i; [done|]. simpl. apply IH. Qed.

(** X15: in a reachable world with the bus not closed, let the subscriber
    at position [n] of the topic be removed by [Unsubscribe] after
    [PublishSync] has taken its snapshot and before its send to that
    subscriber ends (while the send of some position [k], [k ≤ n], waits),
    and let the other subscribers take the value.  Then the sends before
    position [n] are received, the send at position [n] fails on the closed
    channel and is recovered, the sends after it are still made and
    received, and the result is the error that counts one failure and names
    position [n].  The registry has lost that subscriber alone, and its
    channel is the one channel that was closed. *)
Theorem PublishSync_reports_unsubscribed w topic data sched l1 c l2 k :
  reachable w →
  closed (bus w) = false →
  subs_of (bus w) topic = l1 ++ c :: l2 →
  k ≤ length l1 →
  (∀ j, before_send (sched j) =
        if decide (j = k) then [ActUnsubscribe topic c] else []) →
  (∀ j, receives (sched j) = true) →
  ∃ w',
    PublishSync topic data sched w = Ret (aggregate_error [length l1]) w' ∧
    subs_of (bus w') topic = l1 ++ l2 ∧
    closed_chans w' = {[c]} ∪ closed_chans w ∧
    sync_sends (trace w') =
      sync_sends (trace w) ++
      sends_of data 0 (l1 ++ c :: l2)
        (replicate (length l1) true ++ false :: replicate (length l2) true).
Proof.
  intros Hw%reachable_wf Hc Hs Hk Hsched Hrecv.
  pose proof (sorted_lt_NoDup _ (wf_reg_sorted _ Hw topic)) as Hnd.
  rewrite Hs in Hnd. apply NoDup_app in Hnd as (_ & Hd & Hnd).
  apply NoDup_cons in Hnd as [Hc2 _].
  assert (c ∉ l1) as Hc1 by (intros H1; apply (Hd _ H1); left).
  set (gone := λ j : nat, if decide (j = k) then [c] else []).
  assert (∀ x j, x ≠ c → x ∉ gone j) as Hother.
  { intros x j Hx. unfold gone. case_decide; set_solver. }
  assert (∀ n, k < n → ∀ x, Forall (λ j, x ∉ gone j) (seq 0 n) ↔ x ≠ c) as Hgone.
  { intros n Hn x. rewrite Forall_seq. split.
    - intros Hall ->. apply (Hall k); [lia|]. unfold gone.
      rewrite decide_True by done. left.
    - intros Hx j _. by apply Hother. }
  destruct (PublishSync_unsubscribes topic data sched gone w Hw Hc)
    as (w' & Hrun & Htr & Hsubs & Hcl & _); [|done|].
  { intros j. rewrite Hsched. unfold gone. by case_decide. }
  assert (outcomes_of gone 0 (l1 ++ c :: l2) =
            replicate (length l1) true ++ false :: replicate (length l2) true)
    as Hoks.
  { rewrite outcomes_of_app. simpl. f_equal; [|f_equal].
    - apply outcomes_of_true. intros x j Hx. apply Hother. by intros ->.
    - apply bool_decide_eq_false_2. rewrite (Hgone (S (length l1))) by lia.
      by intros Hne.
    - apply outcomes_of_true. intros x j Hx. apply Hother. by intros ->. }
  rewrite Hs, Hoks in Hrun, Htr. rewrite Hs in Hsubs, Hcl.
  exists w'. split_and!.
  - rewrite Hrun. do 2 f_equal.
    rewrite failures_of_app, failures_of_true, length_replicate. simpl.
    by rewrite failures_of_true.
  - rewrite Hsubs.
    rewrite (list_filter_iff _ (λ x, x ≠ c)).
    + by apply filter_ne_remove.
    + intros x. apply Hgone. rewrite length_app. simpl. lia.
  - apply set_eq. intros x. rewrite Hcl, elem_of_union, elem_of_singleton.
    rewrite (Hgone (length (l1 ++ c :: l2))) by (rewrite length_app; simpl; lia).
    split.
    + intros [?|[_ Hx]]; [by right|]. left.
      destruct (decide (x = c)); [done|]. by destruct Hx.
    + intros [->|?]; [|by left]. right. split; [set_solver|]. by intros Hne.
  - done.
Qed.






(** ** The phases of [Close] *)

Lemma Close_phase3_loop_closes (rest : list (string * list chan)) w :
  wf w →
  closed (bus w) = true →
  NoDup rest.*1 →
  (∀ t l, (t, l) ∈ rest → subscribers (bus w) !! t = Some l) →
  ∃ w',
    for_each rest (λ '(topic, subs), close_topic topic subs) w = Ret tt w' ∧
    next_chan w' = next_chan w ∧
    goroutines w' = goroutines w ∧
    (∀ c, c ∈ closed_chans w' ↔
          c ∈ closed_chans w ∨ ∃ t l, (t, l) ∈ rest ∧ c ∈ l) ∧
    (∀ c, received c (trace w') = received c (trace w)).
Proof.
  revert w. induction rest as [|[t l] rest IH]; intros w Hw Hcl Hnd Hin.
  - exists w. split_and!; try done. intros c. split; [by left|].
    intros [?|(t & l & Hx & _)]; [done|]. by apply elem_of_nil in Hx.
  - simpl in *. apply NoDup_cons in Hnd as [Ht Hnd].
    assert (subscribers (bus w) !! t = Some l) as Hl by (apply Hin; left).
    pose proof (close_topic_good t l w Hw Hcl Hl) as Hstep.
    unfold safe in Hstep. rewrite bind_unfold.
    rewrite close_topic_spec in Hstep |- * by done.
    set (w1 := mkWorld _ _ _ _ _) in *. destruct Hstep as [Hw1 _].
    destruct (IH w1 Hw1) as (w' & Hrun & Hnext & Hgs & Hcls & Hrecv);
      [done|done| |].
    { intros t' l' Hin'. unfold w1. simpl. rewrite lookup_delete_ne.
      - apply Hin. by right.
      - intros <-. apply Ht. apply list_elem_of_fmap. by exists (t, l'). }
    exists w'. split_and!; [done|done|done| |].
    + intros c. rewrite Hcls. unfold w1. simpl.
      rewrite elem_of_union, elem_of_list_to_set. split.
      * intros [[Hc|Hc]|(t' & l' & Hx & Hc)].
        -- right. exists t, l. split; [left|done].
        -- by left.
        -- right. exists t', l'. split; [by right|done].
      * intros [Hc|(t' & l' & [[= -> ->]|Hx]%elem_of_cons & Hc)].
        -- left. by right.
        -- left. by left.
        -- right. by exists t', l'.
    + intros c. rewrite Hrecv. unfold w1. simpl.
      by rewrite received_app, received_fmap_close, app_nil_r.
Qed.

(** X17: the phases of [Close()] on a reachable bus that is not closed.  The
    first critical section closes [quitCh] and no other channel, and leaves
    the registry as it is.  When [Close] returns, its second critical
    section has closed the channels the registry held at that moment, and
    no other channel; it has made no channel, and nothing was received
    through it. *)
Theorem Close_closes_what_is_registered w during_wait w0 w1 w' :
  reachable w →
  Close_phase1 w = Ret false w0 →
  run_actions during_wait w0 = Ret tt w1 →
  Close during_wait w = Ret tt w' →
  closed_chans w0 = {[quitCh (bus w)]} ∪ closed_chans w ∧
  subscribers (bus w0) = subscribers (bus w) ∧
  (∀ c, c ∈ closed_chans w' ↔
        c ∈ closed_chans w1 ∨ ∃ t, c ∈ subs_of (bus w1) t) ∧
  next_chan w' = next_chan w1 ∧
  (∀ c, received c (trace w') = received c (trace w1)).
Proof.
  intros Hw%reachable_wf H0 H1 Hrun.
  pose proof (Close_phase1_good w Hw) as Hg0. unfold safe in Hg0.
  rewrite H0 in Hg0. destruct Hg0 as [Hw0 _].
  pose proof (run_actions_good during_wait w0 Hw0) as Hg1. unfold safe in Hg1.
  rewrite H1 in Hg1. destruct Hg1 as [Hw1 Hev1].
  assert (closed (bus w1) = true) as Hc1.
  { apply (ev_closed _ _ Hev1). by eapply Close_phase1_sets_closed. }
  assert (closed (bus w) = false) as Hc.
  { destruct (closed (bus w)) eqn:E; [|done].
    by rewrite Close_phase1_closed in H0. }
  rewrite Close_phase1_open in H0 by eauto using wf_quit_open.
  injection H0 as <-. split; [done|]. split; [done|].
  unfold Close in Hrun. rewrite bind_unfold in Hrun.
  rewrite Close_phase1_open in Hrun by eauto using wf_quit_open.
  rewrite bind_unfold, H1, bind_unfold in Hrun.
  unfold wg_Wait in Hrun. rewrite bind_unfold in Hrun. simpl in Hrun.
  destruct (wg (bus w1)); [|done]. simpl in Hrun.
  rewrite Close_phase3_unfold in Hrun.
  destruct (Close_phase3_loop_closes (range (subscribers (bus w1))) w1)
    as (w'' & Hrun' & Hnext & _ & Hcls & Hrecv); [done|done|..].
  { rewrite range_perm. apply NoDup_fst_map_to_list. }
  { intros t l. rewrite range_perm. apply elem_of_map_to_list. }
  rewrite Hrun' in Hrun. injection Hrun as <-.
  split_and!; [|done|done].
  intros c. rewrite Hcls. split.
  - intros [?|(t & l & Hx & Hin)]; [by left|]. right. exists t.
    rewrite range_perm in Hx. apply elem_of_map_to_list in Hx.
    by rewrite (subs_of_lookup _ _ _ Hx).
  - intros [?|(t & Hin)]; [by left|]. right.
    destruct (subs_of_elem_lookup _ _ _ Hin) as (l & Hl & Hc').
    exists t, l. split; [|done]. rewrite range_perm.
    by apply elem_of_map_to_list.
Qed.

(** X18: once the [Close()] that closed a reachable bus has returned,
    [Unsubscribe] is a call without effect and without panic for every
    topic and every channel, whatever the program did in between: the
    channels that [Close] has closed are not closed again. *)
Theorem Unsubscribe_after_Close_noop w during_wait w' steps w'' topic c :
  reachable w →
  closed (bus w) = false →
  Close during_wait w = Ret tt w' →
  run_steps steps w' = Ret tt w'' →
  Unsubscribe topic c w'' = Ret tt w''.
Proof.
  intros Hw%reachable_wf Hc Hrun Hrun'.
  pose proof (Close_good during_wait w Hw) as Hg. unfold safe in Hg.
  rewrite Hrun in Hg. destruct Hg as ([Hw' Hev] & Hc' & Hempty).
  specialize (Hempty Hc).
  destruct (run_steps_wf_evolves _ _ _ Hw' Hrun') as [_ Hev'].
  apply Unsubscribe_miss. rewrite subs_of_None; [apply not_elem_of_nil|].
  apply eq_None_not_Some. intros Hs.
  apply (ev_topics_closed _ _ Hev' topic Hc') in Hs.
  rewrite Hempty, lookup_empty in Hs. by destruct Hs.
Qed.

(** X19: a [Close()] on a bus that is closed already does not wait for the
    [Close()] that closed it: in a reachable world with [closed] set it
    returns at once, and every channel the registry still holds (the first
    [Close()] has not gone through its second critical section) is open at
    that return. *)
Theorem Close_again_does_not_wait w again t c :
  reachable w →
  closed (bus w) = true →
  c ∈ subs_of (bus w) t →
  Close again w = Ret tt w ∧ (c ∉ closed_chans w).
Proof.
  intros Hw%reachable_wf Hc Hin. split.
  - unfold Close. rewrite bind_unfold. by rewrite Close_phase1_closed.
  - by apply (wf_reg_open _ Hw t).
Qed.

End Proofs.

(** * The theorems at the example worlds *)

Section Examples.
#[local] Existing Instance range_map_to_list.

Lemma ex_world_reachable : reachable ex_world.
Proof.
  apply (reachable_after (run_actions ex_actions) NewEventBus tt).
  - intros _. apply run_actions_steps.
  - apply reachable_new.
  - vm_compute. reflexivity.
Qed.

Lemma ex_world_A_empty_reachable : reachable ex_world_A_empty.
Proof.
  apply (reachable_after (Unsubscribe "A" 2) ex_world tt).
  - intros _. apply Unsubscribe_steps.
  - apply ex_world_reachable.
  - vm_compute. reflexivity.
Qed.

Lemma ex_world_in_flight_reachable : reachable ex_world_in_flight.
Proof.
  apply (reachable_after (Publish "B" 7 (λ _, [])) ex_world tt).
  - apply Publish_steps.
  - apply ex_world_reachable.
  - vm_compute. reflexivity.
Qed.

Lemma ex_world_closed_reachable : reachable ex_world_closed.
Proof.
  apply (reachable_after (Close [ActGoroutine 0 CaseQuit]) ex_world_in_flight tt).
  - apply Close_steps.
  - apply ex_world_in_flight_reachable.
  - vm_compute. reflexivity.
Qed.

Lemma ex_world_sync_reachable : reachable ex_world_sync.
Proof.
  apply (reachable_after (run_actions ex_actions_sync) NewEventBus tt).
  - intros _. apply run_actions_steps.
  - apply reachable_new.
  - vm_compute. reflexivity.
Qed.

Lemma Publish_after_Close_noop_witness :
  closed (bus ex_world_closed) = true ∧
  Publish "B" 8 (λ _, [ActSubscribe "B"]) ex_world_closed =
    Ret tt ex_world_closed.
Proof.
  split; [reflexivity|].
  apply (Publish_after_Close_noop ex_world_closed "B" 8). reflexivity.
Defined.

Lemma PublishSync_no_subscribers_ok_witness :
  PublishSync "never subscribed" 5 ex_sched ex_world_A_empty =
    Ret None ex_world_A_empty ∧
  PublishSync "A" 5 ex_sched ex_world_A_empty = Ret None ex_world_A_empty.
Proof.
  split.
  - apply PublishSync_no_subscribers_ok; [reflexivity|left; reflexivity].
  - apply PublishSync_no_subscribers_ok; [reflexivity|right; reflexivity].
Defined.

Lemma PublishSync_ErrBusClosed_iff_closed_witness :
  PublishSync "B" 5 ex_sched ex_world_closed =
    Ret (Some ErrBusClosed) ex_world_closed ∧
  (Some (Errorf "PublishSync: 1 error(s); first: subscriber 1 panic: send on closed channel")
     = Some ErrBusClosed
   ↔ closed (bus ex_world_sync) = true).
Proof.
  split.
  - apply (proj1 (PublishSync_ErrBusClosed_iff_closed ex_world_closed "B" 5 ex_sched)).
    reflexivity.
  - apply (proj2 (PublishSync_ErrBusClosed_iff_closed ex_world_sync "A" 5 ex_sched)
             _ ex_world_sync_after).
    vm_compute. reflexivity.
Defined.

Lemma PublishSync_aggregates_failures_witness :
  (∃ oks : list bool,
     length oks = 3 ∧
     sync_sends (trace ex_world_sync_after) =
       sync_sends (trace ex_world_sync) ++ sends_of 5 0 [1; 2; 3] oks ∧
     PublishSync_loop 5 ex_sched 0 [1; 2; 3] [] ex_world_sync =
       Ret (subscriber_error <$> failures_of 0 oks) ex_world_sync_after ∧
     (∀ i, i ∈ failures_of 0 oks ↔ oks !! i = Some false) ∧
     Some (Errorf "PublishSync: 1 error(s); first: subscriber 1 panic: send on closed channel")
       = aggregate_error (failures_of 0 oks) ∧
     (Some (Errorf "PublishSync: 1 error(s); first: subscriber 1 panic: send on closed channel")
        = None
      ↔ Forall (λ ok, ok = true) oks)) ∧
  ∃ w',
    PublishSync "A" 5 ex_sched_leave ex_world_sync =
      Ret (Some (Errorf "PublishSync: 2 error(s); first: subscriber 1 panic: send on closed channel"))
        w' ∧
    sync_sends (trace w') =
      [EvSend (BySync 0) 1 5 true; EvSend (BySync 1) 2 5 false;
       EvSend (BySync 2) 3 5 false].
Proof.
  split.
  - apply (proj1 (PublishSync_aggregates_failures ex_world_sync "A" 5 ex_sched
                    eq_refl) _ ex_world_sync_after).
    vm_compute. reflexivity.
  - destruct (proj2 (PublishSync_aggregates_failures ex_world_sync "A" 5
                       ex_sched_leave eq_refl)
                ex_world_sync_reachable ex_gone (λ _, eq_refl) (λ _, eq_refl))
      as (w' & Hrun & Htr & _).
    exists w'. split.
    + rewrite Hrun. vm_compute. reflexivity.
    + rewrite Htr. vm_compute. reflexivity.
Defined.

Lemma Unsubscribe_idempotent_witness :
  Unsubscribe "B" 2 ex_world = Ret tt ex_world ∧
  ∃ w1, Unsubscribe "A" 2 ex_world = Ret tt w1 ∧ Unsubscribe "A" 2 w1 = Ret tt w1.
Proof.
  split.
  - apply (proj1 (Unsubscribe_idempotent ex_world "B" 2)).
    vm_compute. intros Hin. apply list_elem_of_singleton in Hin. discriminate Hin.
  - apply (proj2 (Unsubscribe_idempotent ex_world "A" 2)), ex_world_reachable.
Defined.

Lemma registration_order_kept_witness :
  subs_of (bus ex_world_sync) "A" = [1; 2; 3] ∧
  StronglySorted lt (subs_of (bus ex_world_sync) "A") ∧
  (∃ w', Subscribe "A" ex_world_sync = Ret 4 w' ∧
         subs_of (bus w') "A" = [1; 2; 3; 4]) ∧
  (∃ w', Unsubscribe "A" 2 ex_world_sync = Ret tt w' ∧
         subs_of (bus w') "A" = [1; 3]) ∧
  sync_sends (trace ex_world_sync_after) =
    [EvSend (BySync 0) 1 5 true; EvSend (BySync 1) 2 5 false;
     EvSend (BySync 2) 3 5 true].
Proof.
  destruct (registration_order_kept ex_world_sync "A" ex_world_sync_reachable)
    as (Hsorted & Hsub & Hunsub & Hsync).
  split; [reflexivity|]. split; [exact Hsorted|]. split_and!.
  - destruct (Hsub eq_refl) as (w' & Hrun & Hsubs).
    exists w'. split; [exact Hrun|]. rewrite Hsubs. reflexivity.
  - destruct (Hunsub 2) as (w' & Hrun & Hsubs).
    exists w'. split; [exact Hrun|]. rewrite Hsubs. reflexivity.
  - vm_compute. reflexivity.
Defined.

Lemma topic_persists_until_Close_witness :
  "A" ∈ Topics (bus ex_world) ∧
  ∃ w3, run_actions [ActUnsubscribe "A" 2] ex_world = Ret tt w3 ∧
        closed (bus w3) = false ∧
        "A" ∈ Topics (bus w3) ∧
        SubscriberCount "A" (bus w3) = 0.
Proof.
  destruct (topic_persists_until_Close NewEventBus "A" 1
              (after (Subscribe "A") NewEventBus)
              [Act (ActSubscribe "A"); Act (ActSubscribe "B");
               Act (ActUnsubscribe "A" 1)]
              ex_world) as [Hin Hall].
  - apply reachable_new.
  - vm_compute. reflexivity.
  - vm_compute. reflexivity.
  - reflexivity.
  - split; [exact Hin|]. apply (Hall [2]). reflexivity.
Defined.


Lemma Subscribe_after_Close_terminated_witness :
  ∃ w',
    Subscribe "A" ex_world_closed = Ret 4 w' ∧
    bus w' = bus ex_world_closed ∧
    4 ∈ closed_chans w' ∧
    ∀ steps w'',
      run_steps steps w' = Ret tt w'' →
      4 ∈ closed_chans w'' ∧ received 4 (trace w'') = [].
Proof.
  destruct (Subscribe_after_Close_terminated ex_world_closed "A"
              ex_world_closed_reachable eq_refl)
    as (w' & Hrun & Hbus & _ & _ & _ & Hcl & Hlater & _).
  exists w'. split_and!; [exact Hrun|exact Hbus|exact Hcl|exact Hlater].
Defined.

Lemma Close_idempotent_witness :
  Close [ActSubscribe "A"] ex_world_closed = Ret tt ex_world_closed ∧
  closes_of 0 (trace ex_world_closed) = 1 ∧
  closes_of 0 (trace ex_world) = 0.
Proof.
  destruct (Close_idempotent ex_world_closed) as (Hnoop & Honce & _).
  destruct (Close_idempotent ex_world) as (_ & Hnever & _).
  split_and!.
  - apply Hnoop. reflexivity.
  - apply (Honce ex_world_closed_reachable).
  - apply (Hnever ex_world_reachable).
Defined.

(** ** The further properties at the example worlds *)

Lemma ex_world_closing_reachable : reachable ex_world_closing.
Proof.
  apply (reachable_after (run_actions [ActClosePhase1]) ex_world_in_flight tt).
  - intros _. apply run_actions_steps.
  - apply ex_world_in_flight_reachable.
  - vm_compute. reflexivity.
Qed.

Lemma ex_world_orphan_reachable : reachable ex_world_orphan.
Proof.
  apply (reachable_after (Unsubscribe "B" 3) ex_world_in_flight tt).
  - intros _. apply Unsubscribe_steps.
  - apply ex_world_in_flight_reachable.
  - vm_compute. reflexivity.
Qed.

Lemma Subscribe_registers_witness :
  ∃ ch w',
    Subscribe "A" ex_world = Ret ch w' ∧
    ch = 4 ∧
    SubscriberCount "A" (bus ex_world) = 1 ∧
    SubscriberCount "A" (bus w') = 2 ∧
    SubscriberCount "B" (bus w') = 1 ∧
    (ch ∉ closed_chans w') ∧
    closed_chans w' = closed_chans ex_world.
Proof.
  destruct (Subscribe_registers ex_world "A" ex_world_reachable eq_refl)
    as (ch & w' & Hrun & _ & _ & Hopen & _ & Hcl & Hcount & Hother & _).
  exists ch, w'. split_and!; [exact Hrun| |reflexivity| | |exact Hopen|exact Hcl].
  - vm_compute in Hrun. injection Hrun as <- _. reflexivity.
  - rewrite Hcount. reflexivity.
  - rewrite (Hother "B"); [reflexivity|discriminate].
Defined.

Lemma Unsubscribe_closes_witness :
  ∃ w',
    Unsubscribe "A" 2 ex_world = Ret tt w' ∧
    closed_chans w' = {[2]} ∪ closed_chans ex_world ∧
    SubscriberCount "A" (bus ex_world) = 1 ∧
    SubscriberCount "A" (bus w') = 0 ∧
    ∀ steps w'',
      run_steps steps w' = Ret tt w'' →
      2 ∈ closed_chans w'' ∧
      (∀ t, 2 ∉ subs_of (bus w'') t) ∧
      received 2 (trace w'') = received 2 (trace ex_world).
Proof.
  destruct (Unsubscribe_closes ex_world "A" 2 ex_world_reachable)
    as (w' & Hrun & _ & Hcl & _ & Hcount & _ & Hlater).
  - vm_compute. constructor.
  - exists w'. split_and!; [exact Hrun|exact Hcl|reflexivity| |exact Hlater].
    change (SubscriberCount "A" (bus ex_world)) with 1 in Hcount.
    injection Hcount as ->. reflexivity.
Defined.

Lemma Subscribe_Unsubscribe_round_trip_witness :
  ∃ ch w1 w2,
    Subscribe "C" ex_world = Ret ch w1 ∧
    Unsubscribe "C" ch w1 = Ret tt w2 ∧
    subscribers (bus w2) = <[ "C" := [] ]> (subscribers (bus ex_world)) ∧
    (∀ t, SubscriberCount t (bus w2) = SubscriberCount t (bus ex_world)) ∧
    closed_chans w2 = {[ch]} ∪ closed_chans ex_world.
Proof.
  destruct (Subscribe_Unsubscribe_round_trip ex_world "C" ex_world_reachable
              eq_refl)
    as (ch & w1 & w2 & Hsub & Hun & Hreg & _ & Hcount & _ & Hcl).
  exists ch, w1, w2. split_and!; [exact Hsub|exact Hun|exact Hreg|exact Hcount|exact Hcl].
Defined.

Lemma registered_channels_open_and_unique_witness :
  (2 ∉ closed_chans ex_world) ∧
  2 ≠ quitCh (bus ex_world) ∧
  (∀ t', 2 ∈ subs_of (bus ex_world) t' → t' = "A") ∧
  NoDup (subs_of (bus ex_world) "A") ∧
  "A" ∈ Topics (bus ex_world).
Proof.
  apply (registered_channels_open_and_unique ex_world "A" 2 ex_world_reachable).
  vm_compute. constructor.
Defined.

Lemma close_calls_meet_open_channels_witness :
  (∀ topic, ∃ ch w', Subscribe topic ex_world_closing = Ret ch w') ∧
  (∀ topic c, ∃ w', Unsubscribe topic c ex_world_closing = Ret tt w') ∧
  (∃ already w', Close_phase1 ex_world_closing = Ret already w') ∧
  ∃ w', Close_phase3 ex_world_closing = Ret tt w'.
Proof.
  destruct (close_calls_meet_open_channels ex_world_closing
              ex_world_closing_reachable) as (Hsub & Hunsub & Hp1 & Hp3).
  split_and!; [exact Hsub|exact Hunsub|exact Hp1|].
  apply Hp3. reflexivity.
Defined.

Lemma wg_counts_deliveries_witness :
  wg (bus ex_world_in_flight) = length (goroutines ex_world_in_flight) ∧
  ∀ c data,
    (c, data) ∈ goroutines ex_world_in_flight → c < next_chan ex_world_in_flight.
Proof.
  apply (wg_counts_deliveries ex_world_in_flight ex_world_in_flight_reachable).
Defined.

Lemma Publish_starts_deliveries_witness :
  Publish "B" 7 (λ _, []) ex_world = Ret tt ex_world_in_flight.
Proof.
  rewrite (Publish_starts_deliveries ex_world "B" 7 eq_refl).
  vm_compute. reflexivity.
Defined.

Lemma Publish_delivers_witness :
  ∃ w1 w2,
    Publish "B" 7 (λ _, []) ex_world = Ret tt w1 ∧
    run_actions [ActGoroutine 0 CaseSend] w1 = Ret tt w2 ∧
    bus w2 = bus ex_world ∧
    goroutines w2 = [] ∧
    received 3 (trace w2) = [EvSend ByTask 3 7 true] ∧
    received 2 (trace w2) = [].
Proof.
  destruct (Publish_delivers ex_world "B" 7 ex_world_reachable eq_refl)
    as (w1 & w2 & Hpub & _ & Hrun & Hbus & Hgs & _ & Hrecv).
  exists w1, w2.
  split_and!; [exact Hpub|exact Hrun|exact Hbus|exact Hgs|..].
  - rewrite (Hrecv 3). reflexivity.
  - rewrite (Hrecv 2). reflexivity.
Defined.

Lemma delivery_ends_without_panic_witness :
  ∃ w',
    run_goroutine 0 CaseSend ex_world_orphan = Ret tt w' ∧
    wg (bus w') = 0 ∧
    goroutines w' = [] ∧
    trace w' =
      trace ex_world_orphan ++
      [EvSend ByTask 3 7 false;
       EvLog "eventbus: recovered from subscriber panic: send on closed channel"].
Proof.
  destruct (delivery_ends_without_panic ex_world_orphan 0 3 7
              ex_world_orphan_reachable eq_refl eq_refl)
    as (w' & Hrun & Hwg & Hgs & _ & _ & Htr).
  exists w'. split_and!; [exact Hrun| |exact Hgs|exact Htr].
  change (wg (bus ex_world_orphan)) with 1 in Hwg. injection Hwg as ->.
  reflexivity.
Defined.

Lemma quit_case_needs_Close_witness :
  (∀ i, run_goroutine i CaseQuit ex_world_in_flight = Block) ∧
  ∃ w',
    run_actions [ActGoroutine 0 CaseQuit] ex_world_closing = Ret tt w' ∧
    goroutines w' = [] ∧
    wg (bus w') = 0 ∧
    ∀ c, received c (trace w') = received c (trace ex_world_closing).
Proof.
  split.
  - apply (proj1 (quit_case_needs_Close ex_world_in_flight
                    ex_world_in_flight_reachable)).
    reflexivity.
  - destruct (proj2 (quit_case_needs_Close ex_world_closing
                       ex_world_closing_reachable) eq_refl)
      as (w' & Hrun & Hgs & Hwg & _ & _ & Hrecv).
    exists w'. split_and!; [exact Hrun|exact Hgs|exact Hwg|exact Hrecv].
Defined.


Lemma PublishSync_uninterrupted_witness :
  (∃ w',
     PublishSync "A" 5 (λ _, mkSendEnv [] true) ex_world_sync = Ret None w' ∧
     bus w' = bus ex_world_sync ∧
     received 2 (trace w') = [EvSend (BySync 1) 2 5 true]) ∧
  PublishSync "A" 5 (λ j, mkSendEnv [] (bool_decide (j ≠ 1))) ex_world_sync =
    Block.
Proof.
  split.
  - destruct (proj1 (PublishSync_uninterrupted ex_world_sync "A" 5
                       (λ _, mkSendEnv [] true) ex_world_sync_reachable
                       eq_refl (λ _, eq_refl)) (λ _ _, eq_refl))
      as (w' & Hrun & Hbus & _ & _ & Hrecv & _).
    exists w'. split_and!; [exact Hrun|exact Hbus|].
    rewrite (Hrecv 1 2 eq_refl). reflexivity.
  - apply (proj2 (PublishSync_uninterrupted ex_world_sync "A" 5
                    (λ j, mkSendEnv [] (bool_decide (j ≠ 1)))
                    ex_world_sync_reachable eq_refl (λ _, eq_refl)) 1).
    + vm_compute. lia.
    + reflexivity.
Defined.

Lemma PublishSync_reports_unsubscribed_witness :
  ∃ w',
    PublishSync "A" 5 ex_sched ex_world_sync =
      Ret (Some (Errorf "PublishSync: 1 error(s); first: subscriber 1 panic: send on closed channel"))
        w' ∧
    subs_of (bus w') "A" = [1; 3] ∧
    closed_chans w' = {[2]} ∪ closed_chans ex_world_sync ∧
    sync_sends (trace w') =
      sync_sends (trace ex_world_sync) ++
      [EvSend (BySync 0) 1 5 true; EvSend (BySync 1) 2 5 false;
       EvSend (BySync 2) 3 5 true].
Proof.
  destruct (PublishSync_reports_unsubscribed ex_world_sync "A" 5 ex_sched
              [1] 2 [3] 1 ex_world_sync_reachable eq_refl eq_refl)
    as (w' & Hrun & Hsubs & Hcl & Htr).
  - simpl. lia.
  - intros [|[|j]]; reflexivity.
  - intros [|[|j]]; reflexivity.
  - exists w'. split_and!; [exact Hrun|exact Hsubs|exact Hcl|exact Htr].
Defined.


Lemma Close_closes_what_is_registered_witness :
  closed_chans ex_world_closing = {[0]} ∪ closed_chans ex_world_in_flight ∧
  subscribers (bus ex_world_closing) = subscribers (bus ex_world_in_flight) ∧
  (∀ c, c ∈ closed_chans ex_world_closed ↔
        c ∈ closed_chans ex_world_closing ∨
        ∃ t, c ∈ subs_of (bus ex_world_closing) t) ∧
  next_chan ex_world_closed = next_chan ex_world_closing.
Proof.
  destruct (Close_closes_what_is_registered ex_world_in_flight
              [ActGoroutine 0 CaseQuit] ex_world_closing
              (after (run_goroutine 0 CaseQuit) ex_world_closing)
              ex_world_closed ex_world_in_flight_reachable eq_refl eq_refl)
    as (Hcl0 & Hreg0 & Hcl & Hnext & _).
  - vm_compute. reflexivity.
  - split_and!; [exact Hcl0|exact Hreg0|exact Hcl|exact Hnext].
Defined.

Lemma Unsubscribe_after_Close_noop_witness :
  Unsubscribe "B" 3 ex_world_closed = Ret tt ex_world_closed.
Proof.
  apply (Unsubscribe_after_Close_noop ex_world_in_flight
           [ActGoroutine 0 CaseQuit] ex_world_closed [] ex_world_closed "B" 3
           ex_world_in_flight_reachable eq_refl).
  - vm_compute. reflexivity.
  - reflexivity.
Defined.

Lemma Close_again_does_not_wait_witness :
  Close [] ex_world_closing = Ret tt ex_world_closing ∧
  (3 ∉ closed_chans ex_world_closing).
Proof.
  apply (Close_again_does_not_wait ex_world_closing [] "B" 3
           ex_world_closing_reachable eq_refl).
  vm_compute. constructor.
Defined.

(** ** The tests of the repository, run on the model *)

(** [TestPublishSubscribe]: the subscriber receives what was published. *)
Example TestPublishSubscribe :
  let w1 := after (Subscribe "foo") NewEventBus in
  let w2 := after (Publish "foo" 11 (λ _, [])) w1 in
  let w3 := after (run_goroutine 0 CaseSend) w2 in
  subs_of (bus w1) "foo" = [1] ∧
  received 1 (trace w3) = [EvSend ByTask 1 11 true] ∧
  elements (closed_chans w3) = [].
Proof. vm_compute. done. Qed.

(** [TestUnsubscribe]: after [Unsubscribe("topic", ch1)], [ch1] is closed and
    a [Publish] delivers to [ch2] alone. *)
Example TestUnsubscribe :
  let w1 := after (run_actions [ActSubscribe "topic"; ActSubscribe "topic";
                                ActUnsubscribe "topic" 1]) NewEventBus in
  let w2 := after (Publish "topic" 42 (λ _, [])) w1 in
  let w3 := after (run_goroutine 0 CaseSend) w2 in
  elements (closed_chans w1) = [1] ∧
  goroutines w2 = [(2, 42)] ∧
  received 2 (trace w3) = [EvSend ByTask 2 42 true] ∧
  received 1 (trace w3) = [].
Proof. vm_compute. done. Qed.

(** [TestSubscriberCountAndTopics]. *)
Example TestSubscriberCountAndTopics :
  let w0 := NewEventBus (any:=nat) in
  let w1 := after (run_actions [ActSubscribe "A"; ActSubscribe "A";
                                ActSubscribe "B"]) w0 in
  let w2 := after (run_actions [ActUnsubscribe "A" 1; ActUnsubscribe "A" 2]) w1 in
  SubscriberCount "x" (bus w0) = 0 ∧ Topics (bus w0) = [] ∧
  SubscriberCount "A" (bus w1) = 2 ∧ SubscriberCount "B" (bus w1) = 1 ∧
  Topics (bus w1) = ["A"; "B"] ∧
  SubscriberCount "A" (bus w2) = 0 ∧ Topics (bus w2) = ["A"; "B"].
Proof. vm_compute. done. Qed.

(** [TestCloseBehavior]: [Close] returns although a delivery is in flight to
    a subscriber that does not receive; both channels are closed then. *)
Example TestCloseBehavior :
  let w1 := after (run_actions [ActSubscribe "t1"; ActSubscribe "t2"])
              NewEventBus in
  let w2 := after (Publish "t1" 7 (λ _, [])) w1 in
  let w3 := after (Close [ActGoroutine 0 CaseQuit]) w2 in
  goroutines w2 = [(1, 7)] ∧
  closed (bus w3) = true ∧
  elements (closed_chans w3) = [2; 1; 0] ∧
  Topics (bus w3) = [] ∧ SubscriberCount "t1" (bus w3) = 0 ∧
  received 1 (trace w3) = [].
Proof. vm_compute. done. Qed.

(** [TestSubscribeAfterClose], [TestPublishAfterClose] and
    [TestPublishSyncAfterClose]. *)
Example TestAfterClose :
  let w := after (Close []) NewEventBus in
  (∃ w', Subscribe "any" w = Ret 1 w' ∧ elements (closed_chans w') = [1; 0]) ∧
  Publish "foo" 1 (λ _, []) w = Ret tt w ∧
  PublishSync "any" 123 (λ _, mkSendEnv [] true) w = Ret (Some ErrBusClosed) w.
Proof. vm_compute. split_and!; [eexists; split; reflexivity|done..]. Qed.

(** [TestPublishSync]: both subscribers receive, and the result is nil. *)
Example TestPublishSync :
  let w := after (run_actions [ActSubscribe "sync"; ActSubscribe "sync"])
             NewEventBus in
  ∃ w', PublishSync "sync" 9 (λ _, mkSendEnv [] true) w = Ret None w' ∧
        sync_sends (trace w') =
          [EvSend (BySync 0) 1 9 true; EvSend (BySync 1) 2 9 true].
Proof. vm_compute. eexists. split; reflexivity. Qed.

End Examples.
